(** * Snake: the game-state engine of [hello.py]

    A shallow embedding of the [SnakeGame] class: the state it keeps
    (snake body, applied and pending direction, food, score, game-over
    flag, status line, pending timer) and the methods that change it
    ([reset], [spawn_food], [on_key_press], [process_direction], [step],
    [wrap_point]).

    Modelling decisions.
    - Python integers are unbounded: coordinates and the score are [Z].
      Python's [%] with a positive modulus is [Z.modulo].
    - The deque [self.snake] is a list, head first: [appendleft] is cons,
      [pop] is [removelast].
    - [random.choice] is resolved by an explicit selector [r : nat]: the
      chosen cell is the one at index [r mod n] among the [n] empty cells
      listed in [iter_grid] order.  Ranging over [r] reaches every empty
      cell, which is exactly what [random.choice] may return.
    - A raised exception ([IndexError] on [self.snake[0]] of an empty
      deque, [KeyError] on an unknown key symbol) is the result [None].
    - The canvas is write-only ([draw] reads the state and changes none of
      it), so it is no part of the state: [draw] is the list of the items
      it creates.  The Tk timer is the field [after_id], [true] when a
      callback is scheduled. *)

From Stdlib Require Import ZArith List Bool String Lia.
Import ListNotations.

#[local] Open Scope Z_scope.

(** ** Configuration constants *)

Definition GRID_WIDTH : Z := 20.
Definition GRID_HEIGHT : Z := 20.

Definition Direction : Type := (Z * Z)%type.
Definition Point : Type := (Z * Z)%type.

(** ** Game state *)

(** The text shown in the status label. *)
Inductive StatusText : Type :=
| StatusBlank                     (* the fresh [StringVar] *)
| StatusHelp                      (* Use arrow keys. Press Space to restart. *)
| StatusGameOver (score : Z)      (* Game over! Score: <score>. Press Space to restart. *)
| StatusWin.                      (* You win! Press Space to play again. *)

Record SnakeGame : Type := mkGame {
  after_id : bool;
  snake : list Point;
  direction : Direction;
  pending_direction : Direction;
  food : option Point;
  score : Z;
  game_over : bool;
  status : StatusText
}.

Definition set_after_id (b : bool) (g : SnakeGame) : SnakeGame :=
  mkGame b (snake g) (direction g) (pending_direction g) (food g)
         (score g) (game_over g) (status g).

Definition set_snake (l : list Point) (g : SnakeGame) : SnakeGame :=
  mkGame (after_id g) l (direction g) (pending_direction g) (food g)
         (score g) (game_over g) (status g).

Definition set_direction (d : Direction) (g : SnakeGame) : SnakeGame :=
  mkGame (after_id g) (snake g) d (pending_direction g) (food g)
         (score g) (game_over g) (status g).

Definition set_pending_direction (d : Direction) (g : SnakeGame) : SnakeGame :=
  mkGame (after_id g) (snake g) (direction g) d (food g)
         (score g) (game_over g) (status g).

Definition set_food (f : option Point) (g : SnakeGame) : SnakeGame :=
  mkGame (after_id g) (snake g) (direction g) (pending_direction g) f
         (score g) (game_over g) (status g).

Definition set_score (n : Z) (g : SnakeGame) : SnakeGame :=
  mkGame (after_id g) (snake g) (direction g) (pending_direction g) (food g)
         n (game_over g) (status g).

Definition set_game_over (b : bool) (g : SnakeGame) : SnakeGame :=
  mkGame (after_id g) (snake g) (direction g) (pending_direction g) (food g)
         (score g) b (status g).

Definition update_status (t : StatusText) (g : SnakeGame) : SnakeGame :=
  mkGame (after_id g) (snake g) (direction g) (pending_direction g) (food g)
         (score g) (game_over g) t.

(** ** Cells and the grid *)

Definition point_eqb (a b : Point) : bool :=
  (fst a =? fst b) && (snd a =? snd b).

(** [cell in self.snake] *)
Definition mem_point (c : Point) (l : list Point) : bool :=
  existsb (point_eqb c) l.

(** [next_cell == self.food]; a tuple is never equal to [None]. *)
Definition is_food (c : Point) (f : option Point) : bool :=
  match f with
  | Some p => point_eqb c p
  | None => false
  end.

(** [range(n)] *)
Definition range (n : Z) : list Z :=
  map Z.of_nat (seq 0 (Z.to_nat n)).

Definition iter_grid : list Point :=
  flat_map (fun x => map (fun y => (x, y)) (range GRID_HEIGHT))
           (range GRID_WIDTH).

Definition wrap_point (cell : Point) : Point :=
  let '(x, y) := cell in
  (x mod GRID_WIDTH, y mod GRID_HEIGHT).

Definition in_grid (c : Point) : Prop :=
  0 <= fst c < GRID_WIDTH /\ 0 <= snd c < GRID_HEIGHT.

(** ** Operations *)

(** [set(self.iter_grid()) - set(self.snake)] *)
Definition empty_cells (g : SnakeGame) : list Point :=
  filter (fun c => negb (mem_point c (snake g))) iter_grid.

(** [random.choice(tuple(cells))] on a non-empty collection, resolved by
    the selector [r]; [d] is only the default [nth] asks for. *)
Definition random_choice (r : nat) (d : Point) (cells : list Point) : Point :=
  nth (r mod List.length cells) cells d.

Definition spawn_food (r : nat) (g : SnakeGame) : SnakeGame :=
  match empty_cells g with
  | [] => set_food None g
  | c :: cs => set_food (Some (random_choice r c (c :: cs))) g
  end.

Definition schedule_step (g : SnakeGame) : SnakeGame :=
  set_after_id true g.

Definition reset (r : nat) (g : SnakeGame) : SnakeGame :=
  let g := set_after_id false g in
  let center := (GRID_WIDTH / 2, GRID_HEIGHT / 2) in
  let g := set_snake [center;
                      (fst center - 1, snd center);
                      (fst center - 2, snd center)] g in
  let g := set_direction (1, 0) g in
  let g := set_pending_direction (1, 0) g in
  let g := spawn_food r g in
  let g := set_score 0 g in
  let g := set_game_over false g in
  let g := update_status StatusHelp g in
  schedule_step g.

(** The state built by [__init__] before it calls [reset]. *)
Definition new_game : SnakeGame :=
  mkGame false [] (1, 0) (1, 0) None 0 false StatusBlank.

(** [SnakeGame(root)] *)
Definition init (r : nat) : SnakeGame := reset r new_game.

(** The dictionary of [process_direction]; [None] is a missing key. *)
Definition directions (keysym : string) : option Direction :=
  if String.eqb keysym "Up" then Some (0, -1)
  else if String.eqb keysym "Down" then Some (0, 1)
  else if String.eqb keysym "Left" then Some (-1, 0)
  else if String.eqb keysym "Right" then Some (1, 0)
  else None.

Definition direction_eqb (a b : Direction) : bool :=
  (fst a =? fst b) && (snd a =? snd b).

Definition opposite (d : Direction) : Direction :=
  (- fst d, - snd d).

Definition process_direction (keysym : string) (g : SnakeGame)
  : option SnakeGame :=
  match directions keysym with
  | None => None
  | Some new_direction =>
      if negb (Nat.eqb (List.length (snake g)) 0)
         && Nat.ltb 1 (List.length (snake g))
         && direction_eqb new_direction (opposite (direction g))
      then Some g
      else Some (set_pending_direction new_direction g)
  end.

Definition is_arrow (keysym : string) : bool :=
  String.eqb keysym "Up" || String.eqb keysym "Down"
  || String.eqb keysym "Left" || String.eqb keysym "Right".

Definition on_key_press (r : nat) (keysym : string) (g : SnakeGame)
  : option SnakeGame :=
  if is_arrow keysym then process_direction keysym g
  else if String.eqb keysym "space" && game_over g then Some (reset r g)
  else Some g.

Definition step (r : nat) (g : SnakeGame) : option SnakeGame :=
  let g := set_after_id false g in
  if game_over g then Some g
  else
    let g := set_direction (pending_direction g) g in
    match snake g with
    | [] => None
    | (head_x, head_y) :: _ =>
        let '(dx, dy) := direction g in
        let next_cell := wrap_point (head_x + dx, head_y + dy) in
        if mem_point next_cell (snake g) then
          let g := set_game_over true g in
          Some (update_status (StatusGameOver (score g)) g)
        else
          let g := set_snake (next_cell :: snake g) g in
          let g :=
            if is_food next_cell (food g)
            then spawn_food r (set_score (score g + 1) g)
            else set_snake (removelast (snake g)) g in
          match food g with
          | None =>
              let g := set_game_over true g in
              Some (update_status StatusWin g)
          | Some _ => Some (schedule_step g)
          end
    end.

(** A run of ticks, one selector per tick. *)
Fixpoint steps (rs : list nat) (g : SnakeGame) : option SnakeGame :=
  match rs with
  | [] => Some g
  | r :: rs' =>
      match step r g with
      | None => None
      | Some g' => steps rs' g'
      end
  end.

(** ** Reachable states

    The states the running program can be in: the one the constructor
    leaves, and whatever the methods make of a reachable state. *)
Inductive reachable : SnakeGame -> Prop :=
| reach_init : forall r, reachable (init r)
| reach_reset : forall r g, reachable g -> reachable (reset r g)
| reach_step : forall r g g',
    reachable g -> step r g = Some g' -> reachable g'
| reach_process_direction : forall k g g',
    reachable g -> process_direction k g = Some g' -> reachable g'
| reach_on_key_press : forall r k g g',
    reachable g -> on_key_press r k g = Some g' -> reachable g'.

(** ** Vocabulary of the statements *)

(** The cell the head moves to on a tick taken with direction [d]. *)
Definition next_cell (head : Point) (d : Direction) : Point :=
  wrap_point (fst head + fst d, snd head + snd d).

(** [self.food is None] *)
Definition food_absent (f : option Point) : bool :=
  match f with
  | None => true
  | Some _ => false
  end.

Inductive step_case (r : nat) (g g' : SnakeGame) : Prop :=
| case_halted :
    game_over g = true ->
    g' = set_after_id false g ->
    step_case r g g'
| case_collision : forall h tl,
    game_over g = false ->
    snake g = h :: tl ->
    In (next_cell h (pending_direction g)) (snake g) ->
    g' = update_status (StatusGameOver (score g))
           (set_game_over true
              (set_direction (pending_direction g) (set_after_id false g))) ->
    step_case r g g'
| case_eat : forall h tl,
    game_over g = false ->
    snake g = h :: tl ->
    ~ In (next_cell h (pending_direction g)) (snake g) ->
    food g = Some (next_cell h (pending_direction g)) ->
    snake g' = next_cell h (pending_direction g) :: snake g ->
    score g' = score g + 1 ->
    food g' =
      food (spawn_food r
              (set_snake (next_cell h (pending_direction g) :: snake g) g)) ->
    game_over g' = food_absent (food g') ->
    direction g' = pending_direction g ->
    pending_direction g' = pending_direction g ->
    step_case r g g'
| case_move : forall h tl,
    game_over g = false ->
    snake g = h :: tl ->
    ~ In (next_cell h (pending_direction g)) (snake g) ->
    food g <> Some (next_cell h (pending_direction g)) ->
    snake g' = next_cell h (pending_direction g) :: removelast (snake g) ->
    score g' = score g ->
    food g' = food g ->
    game_over g' = food_absent (food g) ->
    direction g' = pending_direction g ->
    pending_direction g' = pending_direction g ->
    step_case r g g'.

Definition food_off_snake (g : SnakeGame) : Prop :=
  forall f, food g = Some f -> ~ In f (snake g).

Definition food_absent_only_when_full (g : SnakeGame) : Prop :=
  food g = None -> forall c, in_grid c -> In c (snake g).

Definition food_ok (g : SnakeGame) : Prop :=
  food_off_snake g /\ food_absent_only_when_full g.

Definition snake_in_bounds (g : SnakeGame) : Prop :=
  forall c, In c (snake g) -> in_grid c.

Definition snake_unique (g : SnakeGame) : Prop :=
  NoDup (snake g).

Definition game_inv (g : SnakeGame) : Prop :=
  food_ok g /\ snake_in_bounds g /\ snake_unique g /\
  (3 <= List.length (snake g))%nat.

(** A four-cell snake coiled in a square, about to turn into its tail. *)
Definition coiled : SnakeGame :=
  mkGame true [(0, 0); (1, 0); (1, 1); (0, 1)] (-1, 0) (0, 1)
         (Some (5, 5)) 1 false StatusHelp.

(** The coiled snake after it has run into its tail. *)
Definition crashed : SnakeGame :=
  mkGame false [(0, 0); (1, 0); (1, 1); (0, 1)] (0, 1) (0, 1)
         (Some (5, 5)) 1 true (StatusGameOver 1).

Ltac game_simpl :=
  cbn [after_id snake direction pending_direction food score game_over status
       set_after_id set_snake set_direction set_pending_direction set_food
       set_score set_game_over update_status schedule_step] in *.

(** ** Drawing

    [draw] clears the canvas and then issues its items, so the canvas
    content after a call is the list of items it creates, oldest first
    (later items lie on top). *)

Definition CELL_SIZE : Z := 20.

Inductive CanvasItem : Type :=
| create_line (x0 y0 x1 y1 : Z) (fill : string)
| create_rectangle (x0 y0 x1 y1 : Z) (fill outline : string).

Definition draw_grid : list CanvasItem :=
  map (fun x =>
         let x_pos := x * CELL_SIZE in
         create_line x_pos 0 x_pos (GRID_HEIGHT * CELL_SIZE) "#303030")
      (range (GRID_WIDTH + 1))
  ++ map (fun y =>
            let y_pos := y * CELL_SIZE in
            create_line 0 y_pos (GRID_WIDTH * CELL_SIZE) y_pos "#303030")
         (range (GRID_HEIGHT + 1)).

Definition draw_cell (cell : Point) (color : string) : CanvasItem :=
  let '(x, y) := cell in
  let x0 := x * CELL_SIZE in
  let y0 := y * CELL_SIZE in
  let x1 := x0 + CELL_SIZE in
  let y1 := y0 + CELL_SIZE in
  create_rectangle x0 y0 x1 y1 color EmptyString.

(** [enumerate(l)] *)
Fixpoint enumerate_from (A : Type) (index : nat) (l : list A)
  : list (nat * A) :=
  match l with
  | [] => []
  | a :: l' => (index, a) :: enumerate_from A (S index) l'
  end.

Definition enumerate (A : Type) (l : list A) : list (nat * A) :=
  enumerate_from A 0 l.

(** The rectangles of the loop over the snake. *)
Definition draw_snake (l : list Point) : list CanvasItem :=
  map (fun '(index, c) =>
         let color : string :=
           if Nat.eqb index 0 then "#3bd16f"%string else "#2ea75a"%string in
         draw_cell c color)
      (enumerate Point l).

(** [if self.food:] is true for every cell, (0, 0) included: a pair is a
    non-empty tuple. *)
Definition draw (g : SnakeGame) : list CanvasItem :=
  draw_grid
  ++ draw_snake (snake g)
  ++ match food g with
     | Some f => [draw_cell f "#ff6464"]
     | None => []
     end.

(** ** Further vocabulary: headings, adjacency, the canvas *)

Definition unit_direction (d : Direction) : Prop :=
  d = (0, -1) \/ d = (0, 1) \/ d = (-1, 0) \/ d = (1, 0).

(** [a] is one wrapped unit move away from [b]. *)
Definition adjacent (a b : Point) : Prop :=
  exists d, unit_direction d /\ a = next_cell b d.

Fixpoint contiguous (l : list Point) : Prop :=
  match l with
  | [] => True
  | a :: t =>
      match t with
      | [] => True
      | b :: _ => adjacent a b /\ contiguous t
      end
  end.

(** The status line tells how the game stands. *)
Definition status_ok (g : SnakeGame) : Prop :=
  match status g with
  | StatusBlank => False
  | StatusHelp => game_over g = false /\ food g <> None
  | StatusGameOver s => game_over g = true /\ s = score g /\ food g <> None
  | StatusWin => game_over g = true /\ food g = None
  end.

Definition score_ok (g : SnakeGame) : Prop :=
  score g = Z.of_nat (List.length (snake g)) - 3.

Definition timer_ok (g : SnakeGame) : Prop :=
  after_id g = negb (game_over g).

Definition heading_ok (g : SnakeGame) : Prop :=
  unit_direction (direction g) /\
  unit_direction (pending_direction g) /\
  pending_direction g <> opposite (direction g).

(** While the game runs, the head is where the applied direction took it
    from the cell behind it. *)
Definition neck_ok (g : SnakeGame) : Prop :=
  game_over g = false ->
  exists h n tl, snake g = h :: n :: tl /\ h = next_cell n (direction g).

Definition food_in_grid (g : SnakeGame) : Prop :=
  forall f, food g = Some f -> in_grid f.

Definition play_inv (g : SnakeGame) : Prop :=
  status_ok g /\ score_ok g /\ timer_ok g /\ heading_ok g /\
  contiguous (snake g) /\ neck_ok g /\ food_in_grid g.

(** The corner coordinates of an item. *)
Definition item_box (it : CanvasItem) : Z * Z * Z * Z :=
  match it with
  | create_line x0 y0 x1 y1 _ => (x0, y0, x1, y1)
  | create_rectangle x0 y0 x1 y1 _ _ => (x0, y0, x1, y1)
  end.

Definition item_in_canvas (it : CanvasItem) : Prop :=
  let '(x0, y0, x1, y1) := item_box it in
  0 <= x0 <= x1 /\ x1 <= GRID_WIDTH * CELL_SIZE /\
  0 <= y0 <= y1 /\ y1 <= GRID_HEIGHT * CELL_SIZE.

(** Two boxes share interior points. *)
Definition boxes_overlap (a b : CanvasItem) : Prop :=
  let '(ax0, ay0, ax1, ay1) := item_box a in
  let '(bx0, by0, bx1, by1) := item_box b in
  ax0 < bx1 /\ bx0 < ax1 /\ ay0 < by1 /\ by0 < ay1.

(** The game one tick after a start whose food lay right of the head. *)
Definition fed : SnakeGame :=
  mkGame true [(11, 10); (10, 10); (9, 10); (8, 10)] (1, 0) (1, 0)
         (Some (0, 0)) 1 false StatusHelp.

(** A one-cell snake, which only a hand-built state can have. *)
Definition hatchling : SnakeGame :=
  mkGame true [(5, 5)] (1, 0) (1, 0) (Some (7, 7)) 0 false StatusHelp.

(** * Sanity checks on concrete games *)

Example init_snake : snake (init 0) = [(10, 10); (9, 10); (8, 10)].
Proof. reflexivity. Qed.

Example init_food_0 : food (init 0) = Some (0, 0).
Proof. vm_compute. reflexivity. Qed.

Example init_food_227 : food (init 227) = Some (11, 10).
Proof. vm_compute. reflexivity. Qed.

Example init_empty_cells : List.length (empty_cells (init 0)) = 397%nat.
Proof. vm_compute. reflexivity. Qed.

Example coiled_crashes : step 0 coiled = Some crashed.
Proof. reflexivity. Qed.

(** * Basic facts about cells and the grid *)

Lemma point_eqb_eq (a b : Point) : point_eqb a b = true <-> a = b.
Proof.
  destruct a as [ax ay], b as [bx by_]; unfold point_eqb; simpl.
  rewrite andb_true_iff, !Z.eqb_eq.
  split; [intros [-> ->]; reflexivity | intros H; inversion H; auto].
Qed.

Lemma point_eqb_refl (a : Point) : point_eqb a a = true.
Proof. apply point_eqb_eq; reflexivity. Qed.

Lemma mem_point_In (c : Point) (l : list Point) :
  mem_point c l = true <-> In c l.
Proof.
  unfold mem_point. rewrite existsb_exists. split.
  - intros [x [Hin Heq]]. apply point_eqb_eq in Heq. now subst.
  - intros Hin. exists c. split; [assumption | apply point_eqb_refl].
Qed.

Lemma mem_point_not_In (c : Point) (l : list Point) :
  mem_point c l = false <-> ~ In c l.
Proof.
  rewrite <- mem_point_In. destruct (mem_point c l); split; congruence.
Qed.

Lemma is_food_Some (c : Point) (f : option Point) :
  is_food c f = true <-> f = Some c.
Proof.
  destruct f as [p |]; simpl.
  - rewrite point_eqb_eq. split; congruence.
  - split; discriminate.
Qed.

Lemma is_food_not_Some (c : Point) (f : option Point) :
  is_food c f = false <-> f <> Some c.
Proof.
  rewrite <- is_food_Some. destruct (is_food c f); split; congruence.
Qed.

Lemma wrap_point_in_grid (c : Point) : in_grid (wrap_point c).
Proof.
  destruct c as [x y]. unfold in_grid, wrap_point, GRID_WIDTH, GRID_HEIGHT.
  simpl. split; apply Z.mod_pos_bound; lia.
Qed.

Lemma next_cell_in_grid (h : Point) (d : Direction) : in_grid (next_cell h d).
Proof. apply wrap_point_in_grid. Qed.

Lemma range_In (n x : Z) : In x (range n) <-> 0 <= x < n.
Proof.
  unfold range. rewrite in_map_iff. split.
  - intros [k [<- Hk]]. apply in_seq in Hk. lia.
  - intros Hx. exists (Z.to_nat x). split; [lia | apply in_seq; lia].
Qed.

Lemma iter_grid_In (c : Point) : In c iter_grid <-> in_grid c.
Proof.
  unfold iter_grid, in_grid. rewrite in_flat_map. split.
  - intros [x [Hx Hc]]. apply in_map_iff in Hc. destruct Hc as [y [<- Hy]].
    apply range_In in Hx, Hy. simpl. tauto.
  - intros [Hx Hy]. exists (fst c). split; [now apply range_In |].
    apply in_map_iff. exists (snd c). split; [now destruct c | now apply range_In].
Qed.

(** * The effect of [spawn_food] *)

Lemma empty_cells_In (g : SnakeGame) (c : Point) :
  In c (empty_cells g) <-> in_grid c /\ ~ In c (snake g).
Proof.
  unfold empty_cells. rewrite filter_In, iter_grid_In, negb_true_iff.
  now rewrite mem_point_not_In.
Qed.

Lemma random_choice_In (r : nat) (d : Point) (cells : list Point) :
  cells <> [] -> In (random_choice r d cells) cells.
Proof.
  intros H. unfold random_choice. apply nth_In.
  apply Nat.mod_upper_bound. destruct cells; [congruence | discriminate].
Qed.

Lemma spawn_food_frame (r : nat) (g : SnakeGame) :
  after_id (spawn_food r g) = after_id g /\
  snake (spawn_food r g) = snake g /\
  direction (spawn_food r g) = direction g /\
  pending_direction (spawn_food r g) = pending_direction g /\
  score (spawn_food r g) = score g /\
  game_over (spawn_food r g) = game_over g /\
  status (spawn_food r g) = status g.
Proof.
  unfold spawn_food. destruct (empty_cells g); simpl; repeat split.
Qed.

Lemma spawn_food_Some (r : nat) (g : SnakeGame) (f : Point) :
  food (spawn_food r g) = Some f -> in_grid f /\ ~ In f (snake g).
Proof.
  unfold spawn_food. destruct (empty_cells g) as [| c cs] eqn:E;
    unfold set_food; cbn [food snake].
  - discriminate.
  - intros H. injection H as <-. apply empty_cells_In. rewrite E.
    apply random_choice_In. discriminate.
Qed.

Lemma spawn_food_None (r : nat) (g : SnakeGame) :
  food (spawn_food r g) = None ->
  forall c, in_grid c -> In c (snake g).
Proof.
  unfold spawn_food. destruct (empty_cells g) as [| c0 cs] eqn:E;
    unfold set_food; cbn [food snake].
  - intros _ c Hc. destruct (mem_point c (snake g)) eqn:M.
    + now apply mem_point_In.
    + exfalso. apply mem_point_not_In in M.
      assert (In c (empty_cells g)) as H by (apply empty_cells_In; auto).
      rewrite E in H. exact H.
  - discriminate.
Qed.

(** Every empty cell can be the one [spawn_food] picks. *)
Lemma spawn_food_any (g : SnakeGame) (c : Point) :
  in_grid c -> ~ In c (snake g) ->
  exists r, food (spawn_food r g) = Some c.
Proof.
  intros Hc Hn.
  assert (In c (empty_cells g)) as H by (apply empty_cells_In; auto).
  destruct (In_nth _ _ c H) as [n [Hlt Hn']].
  exists n. unfold spawn_food.
  destruct (empty_cells g) as [| c0 cs] eqn:E; [destruct H |].
  unfold set_food, random_choice; cbn [food]. f_equal.
  rewrite Nat.mod_small by exact Hlt.
  rewrite <- Hn'. apply nth_indep. exact Hlt.
Qed.

(** * The four ways a tick can go *)

Lemma step_cases (r : nat) (g g' : SnakeGame) :
  step r g = Some g' -> step_case r g g'.
Proof.
  unfold step. destruct g as [aid sn dir pd fd sc go st]. game_simpl.
  destruct go.
  - intros H. injection H as <-. now apply case_halted.
  - destruct sn as [| [hx hy] tl]; [discriminate |].
    destruct pd as [dx dy].
    change (wrap_point (hx + dx, hy + dy))
      with (next_cell (hx, hy) (dx, dy)).
    set (nc := next_cell (hx, hy) (dx, dy)).
    destruct (mem_point nc _) eqn:Hmem.
    + intros H. injection H as <-.
      apply case_collision with (h := (hx, hy)) (tl := tl); auto.
      now apply mem_point_In.
    + apply mem_point_not_In in Hmem.
      destruct (is_food nc _) eqn:Hfood.
      * apply is_food_Some in Hfood. intros H.
        match type of H with
        | match food ?x with _ => _ end = _ => remember x as g1 eqn:Hg1
        end.
        assert (snake g1 = nc :: (hx, hy) :: tl /\ score g1 = sc + 1 /\
                direction g1 = (dx, dy) /\ pending_direction g1 = (dx, dy) /\
                game_over g1 = false /\
                food g1 = food (spawn_food r
                  (set_snake (nc :: (hx, hy) :: tl)
                     (mkGame aid ((hx, hy) :: tl) dir (dx, dy) fd sc
                        false st))))
          as (Fs & Fsc & Fd & Fp & Fo & Ff).
        { rewrite Hg1. unfold spawn_food, empty_cells. game_simpl.
          destruct (filter _ iter_grid); repeat split. }
        clear Hg1.
        apply case_eat with (h := (hx, hy)) (tl := tl); game_simpl; auto;
          fold nc; destruct (food g1) eqn:Hf1;
          injection H as <-; game_simpl; rewrite ?Hf1; auto; congruence.
      * apply is_food_not_Some in Hfood.
        intros H.
        apply case_move with (h := (hx, hy)) (tl := tl); game_simpl; auto;
          fold nc; auto; destruct fd; injection H as <-; auto.
Qed.

(** A tick raises only on an empty snake in a game that is not over. *)
Lemma step_total (r : nat) (g : SnakeGame) :
  game_over g = true \/ snake g <> [] ->
  exists g', step r g = Some g'.
Proof.
  intros H. unfold step.
  cbn [game_over set_after_id snake set_direction direction pending_direction].
  destruct (game_over g); [eauto |].
  destruct H as [H | H]; [discriminate |].
  destruct (snake g) as [| [hx hy] tl]; [congruence |].
  destruct (pending_direction g) as [dx dy].
  destruct (mem_point _ _); [eauto |].
  match goal with |- context [match food ?x with _ => _ end] =>
    destruct (food x) end; eauto.
Qed.

(** * Facts about dropping the tail cell *)

Section TailFacts.

Variable A : Type.

Lemma removelast_In (x : A) (l : list A) :
  In x (removelast l) -> In x l.
Proof.
  induction l as [| a l IH]; [auto |]. destruct l as [| b l].
  - intros [].
  - cbn [removelast]. intros [-> | H]; [now left | right; now apply IH].
Qed.

Lemma removelast_NoDup (l : list A) :
  NoDup l -> NoDup (removelast l).
Proof.
  induction 1 as [| a l Hn Hl IH]; [constructor |].
  destruct l as [| b l]; [constructor |].
  change (NoDup (a :: removelast (b :: l))). constructor; [| exact IH].
  intros H. apply Hn. now apply removelast_In.
Qed.

Lemma removelast_length (l : list A) :
  List.length (removelast l) = Nat.pred (List.length l).
Proof.
  induction l as [| a l IH]; [reflexivity |].
  destruct l as [| b l]; [reflexivity |].
  change (S (List.length (removelast (b :: l))) = S (List.length l)).
  rewrite IH. reflexivity.
Qed.

Lemma removelast_cons_length (a : A) (l : list A) :
  l <> [] -> List.length (a :: removelast l) = List.length l.
Proof.
  intros H. cbn [List.length]. rewrite removelast_length.
  destruct l; [congruence | reflexivity].
Qed.

Lemma last_not_in_removelast (l : list A) (d : A) :
  NoDup l -> l <> [] -> ~ In (last l d) (removelast l).
Proof.
  intros Hn Hne Hin.
  rewrite (app_removelast_last d Hne) in Hn at 1.
  apply NoDup_remove_2 in Hn. rewrite app_nil_r in Hn. contradiction.
Qed.

Lemma last_In (l : list A) (d : A) : l <> [] -> In (last l d) l.
Proof.
  intros Hne. rewrite (app_removelast_last d Hne) at 2.
  apply in_or_app. right. now left.
Qed.

End TailFacts.

(** * Invariants of the game state *)

(** ** [reset] establishes them *)

Lemma reset_fields (r : nat) (g : SnakeGame) :
  snake (reset r g) = [(10, 10); (9, 10); (8, 10)] /\
  direction (reset r g) = (1, 0) /\
  pending_direction (reset r g) = (1, 0) /\
  score (reset r g) = 0 /\
  game_over (reset r g) = false /\
  status (reset r g) = StatusHelp /\
  after_id (reset r g) = true.
Proof.
  unfold reset. game_simpl.
  match goal with |- context [spawn_food r ?x] =>
    destruct (spawn_food_frame r x) as (_ & Fs & Fd & Fp & _)
  end.
  rewrite Fs, Fd, Fp. repeat split.
Qed.

Lemma reset_food (r : nat) (g : SnakeGame) :
  food (reset r g) =
  food (spawn_food r (set_snake [(10, 10); (9, 10); (8, 10)] g)).
Proof.
  unfold reset, spawn_food, empty_cells. game_simpl.
  change (GRID_WIDTH / 2) with 10. change (GRID_HEIGHT / 2) with 10.
  change (10 - 1) with 9. change (10 - 2) with 8.
  destruct (filter _ iter_grid); reflexivity.
Qed.

Lemma reset_food_ok (r : nat) (g : SnakeGame) : food_ok (reset r g).
Proof.
  destruct (reset_fields r g) as (Hs & _).
  split.
  - intros f Hf. rewrite reset_food in Hf. rewrite Hs.
    apply spawn_food_Some in Hf. exact (proj2 Hf).
  - intros Hf c Hc. rewrite reset_food in Hf. rewrite Hs.
    exact (spawn_food_None _ _ Hf c Hc).
Qed.

Lemma reset_snake_in_bounds (r : nat) (g : SnakeGame) :
  snake_in_bounds (reset r g).
Proof.
  intros c. destruct (reset_fields r g) as (-> & _).
  unfold in_grid, GRID_WIDTH, GRID_HEIGHT.
  intros [<- | [<- | [<- | []]]]; simpl; lia.
Qed.

Lemma reset_snake_unique (r : nat) (g : SnakeGame) :
  snake_unique (reset r g).
Proof.
  unfold snake_unique. destruct (reset_fields r g) as (-> & _).
  repeat constructor; simpl; intuition congruence.
Qed.

(** ** [step] preserves them *)

Lemma step_food_ok (r : nat) (g g' : SnakeGame) :
  food_ok g -> step r g = Some g' -> food_ok g'.
Proof.
  intros [Hoff Hfull] Hstep.
  destruct (step_cases _ _ _ Hstep)
    as [Hover -> | h tl Hover Hs Hin -> | h tl Hover Hs Hnin Hf Hs' _ Hf' _ _ _
        | h tl Hover Hs Hnin Hf Hs' _ Hf' _ _ _].
  - split; assumption.
  - split; assumption.
  - split.
    + intros f E. rewrite Hf' in E. apply spawn_food_Some in E.
      rewrite Hs'. exact (proj2 E).
    + intros E c Hc. rewrite Hf' in E. rewrite Hs'.
      exact (spawn_food_None _ _ E c Hc).
  - split.
    + intros f E. rewrite Hf' in E. rewrite Hs'. intros [<- | Hin].
      * now apply Hf.
      * apply removelast_In in Hin. exact (Hoff f E Hin).
    + intros E. rewrite Hf' in E. exfalso. apply Hnin.
      apply (Hfull E). apply next_cell_in_grid.
Qed.

Lemma step_snake_in_bounds (r : nat) (g g' : SnakeGame) :
  snake_in_bounds g -> step r g = Some g' -> snake_in_bounds g'.
Proof.
  intros Hb Hstep.
  destruct (step_cases _ _ _ Hstep)
    as [Hover -> | h tl Hover Hs Hin -> | h tl Hover Hs Hnin Hf Hs'
        | h tl Hover Hs Hnin Hf Hs'].
  - exact Hb.
  - exact Hb.
  - intros c. rewrite Hs'. intros [<- | Hin];
      [apply next_cell_in_grid | now apply Hb].
  - intros c. rewrite Hs'. intros [<- | Hin];
      [apply next_cell_in_grid | apply Hb; now apply removelast_In].
Qed.

Lemma step_snake_unique (r : nat) (g g' : SnakeGame) :
  snake_unique g -> step r g = Some g' -> snake_unique g'.
Proof.
  unfold snake_unique. intros Hu Hstep.
  destruct (step_cases _ _ _ Hstep)
    as [Hover -> | h tl Hover Hs Hin -> | h tl Hover Hs Hnin Hf Hs'
        | h tl Hover Hs Hnin Hf Hs'].
  - exact Hu.
  - exact Hu.
  - rewrite Hs'. now constructor.
  - rewrite Hs'. constructor.
    + intros Hin. apply Hnin. now apply removelast_In.
    + now apply removelast_NoDup.
Qed.

Lemma step_snake_length (r : nat) (g g' : SnakeGame) :
  step r g = Some g' ->
  (List.length (snake g) <= List.length (snake g'))%nat.
Proof.
  intros Hstep.
  destruct (step_cases _ _ _ Hstep)
    as [Hover -> | h tl Hover Hs Hin -> | h tl Hover Hs Hnin Hf Hs'
        | h tl Hover Hs Hnin Hf Hs']; game_simpl; auto.
  - rewrite Hs'. cbn [List.length]. lia.
  - rewrite Hs', removelast_cons_length; [lia | congruence].
Qed.

(** ** Key presses leave snake and food alone, or reset *)

Lemma process_direction_frame (k : string) (g g' : SnakeGame) :
  process_direction k g = Some g' ->
  snake g' = snake g /\ food g' = food g /\ score g' = score g /\
  game_over g' = game_over g /\ direction g' = direction g.
Proof.
  unfold process_direction. destruct (directions k); [| discriminate].
  destruct (_ && _); intros H; injection H as <-; repeat split.
Qed.

Lemma on_key_press_cases (r : nat) (k : string) (g g' : SnakeGame) :
  on_key_press r k g = Some g' ->
  process_direction k g = Some g' \/
  (k = "space"%string /\ game_over g = true /\ g' = reset r g) \/
  g' = g.
Proof.
  unfold on_key_press. destruct (is_arrow k); [auto |].
  destruct (String.eqb k "space") eqn:Hk; cbn [andb].
  - apply String.eqb_eq in Hk. destruct (game_over g) eqn:Hover;
      intros H; injection H as <-; auto.
  - intros H; injection H as <-; auto.
Qed.

(** ** Every reachable state satisfies them *)

Lemma game_inv_frame (g g' : SnakeGame) :
  snake g' = snake g -> food g' = food g -> game_inv g -> game_inv g'.
Proof.
  unfold game_inv, food_ok, food_off_snake, food_absent_only_when_full,
    snake_in_bounds, snake_unique.
  intros -> ->. auto.
Qed.

Lemma reset_inv (r : nat) (g : SnakeGame) : game_inv (reset r g).
Proof.
  split; [| split; [| split]].
  - apply reset_food_ok.
  - apply reset_snake_in_bounds.
  - apply reset_snake_unique.
  - destruct (reset_fields r g) as (-> & _). cbn [List.length]. lia.
Qed.

Lemma step_inv (r : nat) (g g' : SnakeGame) :
  game_inv g -> step r g = Some g' -> game_inv g'.
Proof.
  intros (Hf & Hb & Hu & Hl) Hstep. split; [| split; [| split]].
  - exact (step_food_ok _ _ _ Hf Hstep).
  - exact (step_snake_in_bounds _ _ _ Hb Hstep).
  - exact (step_snake_unique _ _ _ Hu Hstep).
  - pose proof (step_snake_length _ _ _ Hstep). lia.
Qed.

Lemma process_direction_inv (k : string) (g g' : SnakeGame) :
  game_inv g -> process_direction k g = Some g' -> game_inv g'.
Proof.
  intros Hinv H. apply process_direction_frame in H.
  destruct H as (Hs & Hf & _). exact (game_inv_frame _ _ Hs Hf Hinv).
Qed.

Lemma on_key_press_inv (r : nat) (k : string) (g g' : SnakeGame) :
  game_inv g -> on_key_press r k g = Some g' -> game_inv g'.
Proof.
  intros Hinv H.
  destruct (on_key_press_cases _ _ _ _ H) as [Hp | [(_ & _ & ->) | ->]].
  - exact (process_direction_inv _ _ _ Hinv Hp).
  - apply reset_inv.
  - exact Hinv.
Qed.

Lemma reachable_inv (g : SnakeGame) : reachable g -> game_inv g.
Proof.
  induction 1 as [r | r g _ _ | r g g' _ IH Hstep | k g g' _ IH Hp
                  | r k g g' _ IH Hk].
  - apply reset_inv.
  - apply reset_inv.
  - exact (step_inv _ _ _ IH Hstep).
  - exact (process_direction_inv _ _ _ IH Hp).
  - exact (on_key_press_inv _ _ _ _ IH Hk).
Qed.

Lemma direction_eqb_eq (a b : Direction) : direction_eqb a b = true <-> a = b.
Proof. exact (point_eqb_eq a b). Qed.

(** A reachable snake always has a head, so a tick never raises. *)
Lemma reachable_snake_head (g : SnakeGame) :
  reachable g -> exists h tl, snake g = h :: tl.
Proof.
  intros Hr. destruct (reachable_inv g Hr) as (_ & _ & _ & Hlen).
  destruct (snake g) as [| h tl]; [cbn in Hlen; lia | eauto].
Qed.

(** What a tick does, given which branch the state selects. *)
Lemma step_run (r : nat) (g : SnakeGame) (h : Point) (tl : list Point) :
  game_over g = false ->
  snake g = h :: tl ->
  exists g', step r g = Some g' /\ step_case r g g'.
Proof.
  intros Hover Hs.
  destruct (step_total r g) as [g' Hg'].
  - right. congruence.
  - exists g'. split; [exact Hg' | now apply step_cases].
Qed.

(** * Properties of the game *)

(** C1. In a state that is not game over (and whose snake has a head, as
    every reachable state has), a tick returns, and the snake length is
    unchanged when the next head cell is not the food cell, grows by
    exactly 1 when the food is eaten (the next cell is free and holds the
    food), and is unchanged when the tick ends the game by collision. *)
Theorem tick_snake_length (r : nat) (g : SnakeGame) (h : Point)
    (tl : list Point) :
  game_over g = false ->
  snake g = h :: tl ->
  exists g', step r g = Some g' /\
    (food g <> Some (next_cell h (pending_direction g)) ->
     List.length (snake g') = List.length (snake g)) /\
    (~ In (next_cell h (pending_direction g)) (snake g) ->
     food g = Some (next_cell h (pending_direction g)) ->
     List.length (snake g') = S (List.length (snake g))) /\
    (In (next_cell h (pending_direction g)) (snake g) ->
     game_over g' = true /\
     List.length (snake g') = List.length (snake g)).
Proof.
  intros Hover Hs.
  destruct (step_run r g h tl Hover Hs) as [g' [Hstep Hcase]].
  exists g'. split; [exact Hstep |].
  destruct Hcase
    as [Hover' _ | h' tl' _ Hs' Hin -> | h' tl' _ Hs' Hnin Hf Hsn
        | h' tl' _ Hs' Hnin Hf Hsn]; [congruence | | |];
    assert (h' = h) as -> by congruence; game_simpl.
  - repeat split; auto. intros Hnin. contradiction.
  - rewrite Hsn. cbn [List.length]. repeat split; auto; contradiction.
  - rewrite Hsn, removelast_cons_length by congruence.
    repeat split; auto; contradiction.
Qed.

Lemma tick_snake_length_witness :
  exists g', step 0 (init 0) = Some g' /\
    (food (init 0) <> Some (next_cell (10, 10) (pending_direction (init 0))) ->
     List.length (snake g') = List.length (snake (init 0))) /\
    (~ In (next_cell (10, 10) (pending_direction (init 0))) (snake (init 0)) ->
     food (init 0) = Some (next_cell (10, 10) (pending_direction (init 0))) ->
     List.length (snake g') = S (List.length (snake (init 0)))) /\
    (In (next_cell (10, 10) (pending_direction (init 0))) (snake (init 0)) ->
     game_over g' = true /\
     List.length (snake g') = List.length (snake (init 0))).
Proof.
  apply (tick_snake_length 0%nat (init 0) (10, 10) [(9, 10); (8, 10)]);
    reflexivity.
Defined.

(** C2. In a state that is not game over, if the wrapped next head cell
    lies in the snake, the tick sets the game-over flag and leaves the
    snake, the score and the food as they were. *)
Theorem tick_collision (r : nat) (g : SnakeGame) (h : Point)
    (tl : list Point) :
  game_over g = false ->
  snake g = h :: tl ->
  In (next_cell h (pending_direction g)) (snake g) ->
  exists g', step r g = Some g' /\
    game_over g' = true /\
    snake g' = snake g /\
    score g' = score g /\
    food g' = food g.
Proof.
  intros Hover Hs Hin.
  destruct (step_run r g h tl Hover Hs) as [g' [Hstep Hcase]].
  exists g'. split; [exact Hstep |].
  destruct Hcase
    as [Hover' _ | h' tl' _ Hs' _ -> | h' tl' _ Hs' Hnin | h' tl' _ Hs' Hnin];
    [congruence | | |]; assert (h' = h) as -> by congruence.
  - repeat split.
  - contradiction.
  - contradiction.
Qed.

Lemma tick_collision_witness :
  exists g', step 0 coiled = Some g' /\
    game_over g' = true /\
    snake g' = snake coiled /\
    score g' = score coiled /\
    food g' = food coiled.
Proof.
  apply (tick_collision 0%nat coiled (0, 0) [(1, 0); (1, 1); (0, 1)]).
  - reflexivity.
  - reflexivity.
  - vm_compute. right. right. right. left. reflexivity.
Defined.

(** C3. In every reachable state the food cell, when present, is not a
    snake cell, and the food is absent only when every grid cell is a
    snake cell; [reset], [step], [process_direction] and [on_key_press]
    each preserve this. *)
Theorem food_never_on_snake :
  (forall g, reachable g -> food_ok g) /\
  (forall r g, food_ok (reset r g)) /\
  (forall r g g', food_ok g -> step r g = Some g' -> food_ok g') /\
  (forall k g g', food_ok g -> process_direction k g = Some g' -> food_ok g') /\
  (forall r k g g', food_ok g -> on_key_press r k g = Some g' -> food_ok g').
Proof.
  assert (forall k g g',
            food_ok g -> process_direction k g = Some g' -> food_ok g') as Hp.
  { intros k g g' Hok H. apply process_direction_frame in H.
    destruct H as (Hs & Hf & _).
    unfold food_ok, food_off_snake, food_absent_only_when_full in *.
    rewrite Hs, Hf. exact Hok. }
  split; [| split; [| split; [| split]]].
  - intros g Hr. exact (proj1 (reachable_inv g Hr)).
  - apply reset_food_ok.
  - apply step_food_ok.
  - exact Hp.
  - intros r k g g' Hok H.
    destruct (on_key_press_cases _ _ _ _ H) as [Hpd | [(_ & _ & ->) | ->]].
    + exact (Hp _ _ _ Hok Hpd).
    + apply reset_food_ok.
    + exact Hok.
Qed.

Lemma food_never_on_snake_witness :
  reachable (init 0) /\ food_ok (init 0).
Proof.
  split; [apply reach_init |].
  apply (proj1 food_never_on_snake (init 0)). apply reach_init.
Defined.

(** C4. In every reachable state, for each of the four direction keys:
    when its direction is the exact opposite of the applied direction the
    state (so the pending direction) is left as it was; otherwise the
    direction is recorded as pending and nothing else changes. *)
Theorem process_direction_rejects_reversal (k : string) (d : Direction)
    (g : SnakeGame) :
  reachable g ->
  directions k = Some d ->
  exists g', process_direction k g = Some g' /\
    (d = opposite (direction g) ->
     g' = g /\ pending_direction g' = pending_direction g) /\
    (d <> opposite (direction g) ->
     g' = set_pending_direction d g /\ pending_direction g' = d).
Proof.
  intros Hr Hd. destruct (reachable_inv g Hr) as (_ & _ & _ & Hlen).
  unfold process_direction. rewrite Hd.
  destruct (List.length (snake g)) as [| [| n]] eqn:Hl; [lia | lia |].
  cbn [Nat.eqb Nat.ltb Nat.leb negb andb].
  destruct (direction_eqb d (opposite (direction g))) eqn:E.
  - apply direction_eqb_eq in E. exists g.
    split; [reflexivity | split]; [auto | congruence].
  - assert (d <> opposite (direction g)) as Hne.
    { intros ->. rewrite (proj2 (direction_eqb_eq _ _) eq_refl) in E.
      discriminate. }
    exists (set_pending_direction d g).
    split; [reflexivity | split]; [contradiction | auto].
Qed.

Lemma process_direction_rejects_reversal_witness :
  exists g', process_direction "Left" (init 0) = Some g' /\
    ((-1, 0) = opposite (direction (init 0)) ->
     g' = init 0 /\ pending_direction g' = pending_direction (init 0)) /\
    ((-1, 0) <> opposite (direction (init 0)) ->
     g' = set_pending_direction (-1, 0) (init 0) /\
     pending_direction g' = (-1, 0)).
Proof.
  apply (process_direction_rejects_reversal "Left" (-1, 0) (init 0)).
  - apply reach_init.
  - reflexivity.
Defined.

(** C5. In every reachable state every snake cell, the head included, has
    x in [0, GRID_WIDTH) and y in [0, GRID_HEIGHT); and the wrapped next
    head cell is in bounds whatever the head and the displacement. *)
Theorem snake_cells_in_bounds :
  (forall g c, reachable g -> In c (snake g) ->
     0 <= fst c < GRID_WIDTH /\ 0 <= snd c < GRID_HEIGHT) /\
  (forall x y dx dy : Z,
     0 <= fst (wrap_point (x + dx, y + dy)) < GRID_WIDTH /\
     0 <= snd (wrap_point (x + dx, y + dy)) < GRID_HEIGHT).
Proof.
  split.
  - intros g c Hr Hin.
    destruct (reachable_inv g Hr) as (_ & Hb & _). exact (Hb c Hin).
  - intros x y dx dy. exact (wrap_point_in_grid (x + dx, y + dy)).
Qed.

Lemma snake_cells_in_bounds_witness :
  In (10, 10) (snake (init 0)) /\
  0 <= fst (10, 10) < GRID_WIDTH /\ 0 <= snd (10, 10) < GRID_HEIGHT.
Proof.
  split; [left; reflexivity |].
  apply (proj1 snake_cells_in_bounds (init 0) (10, 10)).
  - apply reach_init.
  - left. reflexivity.
Defined.

(** C6, as amended.  After any reset, one tick with no key pressed
    returns, keeps the game running and moves the head exactly one cell
    to the right, onto (11,10).  The tail cell is dropped, so that the
    snake is the three cells (11,10), (10,10), (9,10), provided the food
    was not spawned on the cell right of the head; when it was, the tail
    stays and the snake has four cells. *)
Theorem first_tick_moves_right (r r' : nat) (g : SnakeGame) :
  exists g', step r' (reset r g) = Some g' /\
    hd_error (snake g') = Some (11, 10) /\
    direction g' = (1, 0) /\
    game_over g' = false /\
    (food (reset r g) <> Some (11, 10) ->
     snake g' = [(11, 10); (10, 10); (9, 10)] /\
     List.length (snake g') = 3%nat) /\
    (food (reset r g) = Some (11, 10) ->
     snake g' = [(11, 10); (10, 10); (9, 10); (8, 10)] /\
     List.length (snake g') = 4%nat).
Proof.
  destruct (reset_fields r g) as (Hs & _ & Hp & _ & Hover & _).
  destruct (step_run r' (reset r g) (10, 10) [(9, 10); (8, 10)] Hover Hs)
    as [g' [Hstep Hcase]].
  exists g'. split; [exact Hstep |].
  assert (next_cell (10, 10) (1, 0) = (11, 10)) as Hnc by reflexivity.
  assert (in_grid (0, 0)) as H0
    by (unfold in_grid, GRID_WIDTH, GRID_HEIGHT; simpl; lia).
  destruct Hcase
    as [Hover' _ | h' tl' _ Hs' Hin _
        | h' tl' _ Hs' _ Hf Hsn _ Hf' Hgo Hd _
        | h' tl' _ Hs' _ Hf Hsn _ Hf' Hgo Hd _]; [congruence | | |];
    assert (h' = (10, 10)) as -> by congruence; rewrite Hp, Hnc in *.
  - exfalso. rewrite Hs in Hin.
    destruct Hin as [E | [E | [E | []]]]; discriminate.
  - (* the food lay on (11,10) *)
    rewrite Hs in Hsn. rewrite Hsn, Hd.
    split; [reflexivity |]. split; [reflexivity |]. split.
    + rewrite Hgo. destruct (food g') eqn:E; [reflexivity |].
      exfalso. symmetry in Hf'.
      pose proof (spawn_food_None _ _ Hf' (0, 0) H0) as H.
      cbn [snake set_snake] in H. rewrite Hs in H.
      destruct H as [X | [X | [X | [X | []]]]]; discriminate.
    + split; [intros Hne; contradiction |].
      intros _. split; reflexivity.
  - (* the food lay elsewhere *)
    rewrite Hs in Hsn. cbn [removelast] in Hsn. rewrite Hsn, Hd.
    split; [reflexivity |]. split; [reflexivity |]. split.
    + rewrite Hgo. destruct (food (reset r g)) eqn:E; [reflexivity |].
      exfalso. pose proof (proj2 (reset_food_ok r g) E (0, 0) H0) as H.
      rewrite Hs in H.
      destruct H as [X | [X | [X | []]]]; discriminate.
    + split; [intros _; split; reflexivity |].
      intros E. contradiction.
Qed.

Lemma first_tick_moves_right_witness :
  food (init 0) <> Some (11, 10) /\
  exists g', step 0 (reset 0 new_game) = Some g' /\
    hd_error (snake g') = Some (11, 10) /\
    snake g' = [(11, 10); (10, 10); (9, 10)] /\
    List.length (snake g') = 3%nat /\
    game_over g' = false.
Proof.
  split.
  - vm_compute. discriminate.
  - destruct (first_tick_moves_right 0%nat 0%nat new_game)
      as (g' & Hstep & Hhd & _ & Hgo & Hmove & _).
    exists g'. split; [exact Hstep |]. split; [exact Hhd |].
    destruct Hmove as (Hsn & Hlen); [vm_compute; discriminate |].
    split; [exact Hsn |]. split; [exact Hlen | exact Hgo].
Defined.

(** C6, as stated, fails: when the food is spawned right of the head (the
    selector 227 picks (11,10)), the first tick eats it, the tail stays
    and the snake has four cells. *)
Lemma first_tick_eats_food_ahead :
  food (init 227) = Some (11, 10) /\
  option_map snake (step 0 (init 227)) =
    Some [(11, 10); (10, 10); (9, 10); (8, 10)] /\
  option_map (fun g => List.length (snake g)) (step 0 (init 227)) <>
    Some 3%nat.
Proof.
  vm_compute. repeat split. discriminate.
Qed.

(** A tick in a finished game only clears the timer handle. *)
Lemma step_game_over (r : nat) (g : SnakeGame) :
  game_over g = true -> step r g = Some (set_after_id false g).
Proof.
  intros H. unfold step. game_simpl. rewrite H. reflexivity.
Qed.

(** C7. Once the game-over flag is set, any run of ticks returns and
    leaves snake, direction, pending direction, food, score, flag and
    status as they were; a direction key keeps the flag set; the only key
    press that clears the flag is the space key, through [reset], which
    does clear it. *)
Theorem game_over_is_terminal (g : SnakeGame) :
  game_over g = true ->
  (forall rs, exists g', steps rs g = Some g' /\
     snake g' = snake g /\ direction g' = direction g /\
     pending_direction g' = pending_direction g /\
     food g' = food g /\ score g' = score g /\
     game_over g' = true /\ status g' = status g) /\
  (forall k g', process_direction k g = Some g' -> game_over g' = true) /\
  (forall r k g', on_key_press r k g = Some g' -> game_over g' = false ->
     k = "space"%string /\ g' = reset r g) /\
  (forall r, on_key_press r "space" g = Some (reset r g) /\
     game_over (reset r g) = false).
Proof.
  intros Hover. split; [| split; [| split]].
  - intros rs. revert g Hover.
    induction rs as [| r rs IH]; intros g Hover.
    + exists g. repeat split; auto.
    + cbn [steps]. rewrite (step_game_over r g Hover).
      destruct (IH (set_after_id false g) Hover)
        as (g' & Hrun & Hs & Hd & Hp & Hf & Hsc & Hgo & Hst).
      exists g'. game_simpl. repeat split; assumption.
  - intros k g' H. apply process_direction_frame in H.
    destruct H as (_ & _ & _ & Hgo & _). congruence.
  - intros r k g' H Hgo.
    destruct (on_key_press_cases _ _ _ _ H) as [Hp | [(Hk & _ & E) | E]].
    + apply process_direction_frame in Hp.
      destruct Hp as (_ & _ & _ & Hgo' & _). congruence.
    + auto.
    + subst g'. congruence.
  - intros r. unfold on_key_press. cbn [is_arrow String.eqb orb].
    rewrite Hover. split; [reflexivity |].
    exact (proj1 (proj2 (proj2 (proj2 (proj2 (reset_fields r g)))))).
Qed.

Lemma game_over_is_terminal_witness :
  (forall rs, exists g', steps rs crashed = Some g' /\
     snake g' = snake crashed /\ direction g' = direction crashed /\
     pending_direction g' = pending_direction crashed /\
     food g' = food crashed /\ score g' = score crashed /\
     game_over g' = true /\ status g' = status crashed) /\
  (forall k g', process_direction k crashed = Some g' ->
     game_over g' = true) /\
  (forall r k g', on_key_press r k crashed = Some g' ->
     game_over g' = false -> k = "space"%string /\ g' = reset r crashed) /\
  (forall r, on_key_press r "space" crashed = Some (reset r crashed) /\
     game_over (reset r crashed) = false).
Proof.
  apply (game_over_is_terminal crashed). reflexivity.
Defined.

(** C8. After [reset], whatever the state before: the snake is the three
    cells center, one left of it, two left of it, head first; the applied
    and pending directions are (1,0); the score is 0; the game-over flag
    is false; and a food cell is present, in the grid and off the snake. *)
Theorem reset_state (r : nat) (g : SnakeGame) :
  snake (reset r g) =
    [(GRID_WIDTH / 2, GRID_HEIGHT / 2);
     (GRID_WIDTH / 2 - 1, GRID_HEIGHT / 2);
     (GRID_WIDTH / 2 - 2, GRID_HEIGHT / 2)] /\
  List.length (snake (reset r g)) = 3%nat /\
  direction (reset r g) = (1, 0) /\
  pending_direction (reset r g) = (1, 0) /\
  score (reset r g) = 0 /\
  game_over (reset r g) = false /\
  exists f, food (reset r g) = Some f /\ in_grid f /\
            ~ In f (snake (reset r g)).
Proof.
  destruct (reset_fields r g) as (Hs & Hd & Hp & Hsc & Hgo & _).
  rewrite Hs, Hd, Hp, Hsc, Hgo. repeat split.
  destruct (food (reset r g)) as [f |] eqn:E.
  - exists f. rewrite reset_food in E. apply spawn_food_Some in E.
    split; [reflexivity | exact E].
  - exfalso. pose proof (proj2 (reset_food_ok r g) E (0, 0)) as H.
    rewrite Hs in H.
    assert (in_grid (0, 0)) as H0
      by (unfold in_grid, GRID_WIDTH, GRID_HEIGHT; simpl; lia).
    destruct (H H0) as [X | [X | [X | []]]]; discriminate.
Qed.

(** C9. In every reachable state the snake cells are pairwise distinct,
    and [reset], [step], [process_direction] and [on_key_press] each
    preserve that. *)
Theorem snake_cells_distinct :
  (forall g, reachable g -> NoDup (snake g)) /\
  (forall r g, NoDup (snake (reset r g))) /\
  (forall r g g', NoDup (snake g) -> step r g = Some g' ->
     NoDup (snake g')) /\
  (forall k g g', NoDup (snake g) -> process_direction k g = Some g' ->
     NoDup (snake g')) /\
  (forall r k g g', NoDup (snake g) -> on_key_press r k g = Some g' ->
     NoDup (snake g')).
Proof.
  assert (forall k g g', NoDup (snake g) ->
            process_direction k g = Some g' -> NoDup (snake g')) as Hp.
  { intros k g g' Hn H. apply process_direction_frame in H.
    destruct H as (-> & _). exact Hn. }
  split; [| split; [| split; [| split]]].
  - intros g Hr. exact (proj1 (proj2 (proj2 (reachable_inv g Hr)))).
  - apply reset_snake_unique.
  - apply step_snake_unique.
  - exact Hp.
  - intros r k g g' Hn H.
    destruct (on_key_press_cases _ _ _ _ H) as [Hpd | [(_ & _ & ->) | ->]].
    + exact (Hp _ _ _ Hn Hpd).
    + apply reset_snake_unique.
    + exact Hn.
Qed.

Lemma snake_cells_distinct_witness :
  reachable (init 0) /\ NoDup (snake (init 0)).
Proof.
  split; [apply reach_init |].
  apply (proj1 snake_cells_distinct (init 0)). apply reach_init.
Defined.

(** C10. In a state that is not game over, when the wrapped next head
    cell is the snake's tail cell, the tick ends the game and the snake
    stays where it was, although (the cells being distinct) that cell is
    free once the tail is dropped: membership is tested on the whole
    snake, before any tail removal. *)
Theorem tick_onto_tail_ends_game (r : nat) (g : SnakeGame) (h : Point)
    (tl : list Point) :
  game_over g = false ->
  snake g = h :: tl ->
  next_cell h (pending_direction g) = last (snake g) h ->
  exists g', step r g = Some g' /\
    game_over g' = true /\
    snake g' = snake g /\
    (NoDup (snake g) ->
     ~ In (next_cell h (pending_direction g)) (removelast (snake g))).
Proof.
  intros Hover Hs Hnc.
  assert (snake g <> []) as Hne by congruence.
  assert (In (next_cell h (pending_direction g)) (snake g)) as Hin
    by (rewrite Hnc; now apply last_In).
  destruct (step_run r g h tl Hover Hs) as [g' [Hstep Hcase]].
  exists g'. split; [exact Hstep |].
  destruct Hcase
    as [Hover' _ | h' tl' _ Hs' _ -> | h' tl' _ Hs' Hnin | h' tl' _ Hs' Hnin];
    [congruence | | |]; assert (h' = h) as -> by congruence.
  - repeat split. intros Hn. rewrite Hnc.
    now apply last_not_in_removelast.
  - contradiction.
  - contradiction.
Qed.

Lemma tick_onto_tail_ends_game_witness :
  exists g', step 0 coiled = Some g' /\
    game_over g' = true /\
    snake g' = snake coiled /\
    (NoDup (snake coiled) ->
     ~ In (next_cell (0, 0) (pending_direction coiled))
          (removelast (snake coiled))).
Proof.
  apply (tick_onto_tail_ends_game 0%nat coiled (0, 0)
           [(1, 0); (1, 1); (0, 1)]); reflexivity.
Defined.

(** * More on what a tick does *)

(** Timer handle and status line after a tick of a running game. *)
Lemma step_meta (r : nat) (g g' : SnakeGame) (h : Point) (tl : list Point) :
  step r g = Some g' ->
  game_over g = false ->
  snake g = h :: tl ->
  if mem_point (next_cell h (pending_direction g)) (snake g)
  then after_id g' = false /\ status g' = StatusGameOver (score g)
  else after_id g' = negb (game_over g') /\
       status g' = (if game_over g' then StatusWin else status g).
Proof.
  unfold step. destruct g as [aid sn dir pd fd sc go st]. game_simpl.
  intros H -> ->. destruct h as [hx hy], pd as [dx dy].
  change (wrap_point (hx + dx, hy + dy))
    with (next_cell (hx, hy) (dx, dy)) in H.
  cbn [fst snd next_cell].
  change (wrap_point (hx + dx, hy + dy))
    with (next_cell (hx, hy) (dx, dy)).
  set (nc := next_cell (hx, hy) (dx, dy)) in *.
  destruct (mem_point nc _) eqn:Hmem.
  - injection H as <-. game_simpl. auto.
  - destruct (is_food nc _) eqn:Hfood.
    + match type of H with
      | match food ?x with _ => _ end = _ => remember x as g1 eqn:Hg1
      end.
      assert (game_over g1 = false /\ status g1 = st /\ after_id g1 = false)
        as (Fo & Fst & Fa).
      { rewrite Hg1. unfold spawn_food. game_simpl.
        destruct (empty_cells _); auto. }
      destruct (food g1); injection H as <-; game_simpl;
        rewrite ?Fo; auto.
    + game_simpl. destruct fd; injection H as <-; game_simpl; auto.
Qed.

Lemma directions_unit (k : string) (d : Direction) :
  directions k = Some d -> unit_direction d.
Proof.
  unfold directions, unit_direction.
  repeat (match goal with |- context [String.eqb k ?s] =>
            destruct (String.eqb k s) end);
    intros H; inversion H; auto.
Qed.

Lemma directions_is_arrow (k : string) :
  is_arrow k = true <-> directions k <> None.
Proof.
  unfold directions, is_arrow.
  repeat (match goal with |- context [String.eqb k ?s] =>
            destruct (String.eqb k s) end);
    cbn; split; congruence.
Qed.

Lemma unit_not_opposite (d : Direction) :
  unit_direction d -> d <> opposite d.
Proof.
  intros [-> | [-> | [-> | ->]]]; discriminate.
Qed.

Lemma process_direction_cases (k : string) (g g' : SnakeGame) :
  process_direction k g = Some g' ->
  exists d, directions k = Some d /\
    ((g' = g /\ d = opposite (direction g) /\
      (1 < List.length (snake g))%nat) \/
     (g' = set_pending_direction d g /\
      ((1 < List.length (snake g))%nat -> d <> opposite (direction g)))).
Proof.
  unfold process_direction. destruct (directions k) as [d |]; [| discriminate].
  intros H. exists d. split; [reflexivity |].
  destruct (negb _) eqn:Hn; cbn [andb] in H.
  - destruct (Nat.ltb 1 _) eqn:Hl; cbn [andb] in H.
    + apply Nat.ltb_lt in Hl.
      destruct (direction_eqb d _) eqn:E; injection H as <-.
      * left. apply direction_eqb_eq in E. auto.
      * right. split; [reflexivity |]. intros _ ->.
        rewrite (proj2 (direction_eqb_eq _ _) eq_refl) in E. discriminate.
    + apply Nat.ltb_ge in Hl. injection H as <-. right.
      split; [reflexivity | lia].
  - apply negb_false_iff, Nat.eqb_eq in Hn. injection H as <-. right.
    split; [reflexivity | lia].
Qed.

Lemma contiguous_removelast (l : list Point) :
  contiguous l -> contiguous (removelast l).
Proof.
  induction l as [| a l IH]; [auto |].
  destruct l as [| b l]; [auto |].
  destruct l as [| c l]; [cbn; auto |].
  intros [Hab Ht]. specialize (IH Ht).
  change (removelast (a :: b :: c :: l))
    with (a :: b :: removelast (c :: l)).
  change (removelast (b :: c :: l)) with (b :: removelast (c :: l)) in IH.
  split; assumption.
Qed.

Lemma status_ok_running (g : SnakeGame) :
  status_ok g -> game_over g = false ->
  status g = StatusHelp /\ food g <> None.
Proof.
  unfold status_ok. destruct (status g); intros H Hover.
  - contradiction.
  - split; [reflexivity | exact (proj2 H)].
  - destruct H; congruence.
  - destruct H; congruence.
Qed.

Lemma reset_food_present (r : nat) (g : SnakeGame) :
  exists f, food (reset r g) = Some f /\ in_grid f.
Proof.
  destruct (reset_fields r g) as (Hs & _).
  destruct (food (reset r g)) as [f |] eqn:E.
  - exists f. rewrite reset_food in E. apply spawn_food_Some in E.
    split; [reflexivity | exact (proj1 E)].
  - exfalso. pose proof (proj2 (reset_food_ok r g) E (0, 0)) as H.
    rewrite Hs in H.
    assert (in_grid (0, 0)) as H0
      by (unfold in_grid, GRID_WIDTH, GRID_HEIGHT; simpl; lia).
    destruct (H H0) as [X | [X | [X | []]]]; discriminate.
Qed.

(** * The second group of invariants *)

Lemma reset_play_inv (r : nat) (g : SnakeGame) : play_inv (reset r g).
Proof.
  destruct (reset_fields r g) as (Hs & Hd & Hp & Hsc & Hgo & Hst & Ha).
  destruct (reset_food_present r g) as (f & Hf & Hfg).
  unfold play_inv, status_ok, score_ok, timer_ok, heading_ok, neck_ok,
    food_in_grid.
  rewrite Hs, Hd, Hp, Hsc, Hgo, Hst, Ha, Hf.
  split; [split; [reflexivity | discriminate] |].
  split; [reflexivity |]. split; [reflexivity |].
  split; [unfold unit_direction; repeat split; auto; discriminate |].
  split.
  - cbn [contiguous]. repeat split;
      exists (1, 0); (split; [unfold unit_direction; auto | reflexivity]).
  - split.
    + intros _. exists (10, 10), (9, 10), [(8, 10)]. split; reflexivity.
    + intros f' E. injection E as <-. exact Hfg.
Qed.

Lemma step_play_inv (r : nat) (g g' : SnakeGame) :
  play_inv g -> step r g = Some g' -> play_inv g'.
Proof.
  intros (Hst & Hsc & Htm & (Hd & Hp & Hne) & Hct & Hnk & Hfg) Hstep.
  destruct (step_cases _ _ _ Hstep)
    as [Hover -> | h tl Hover Hs Hin E
        | h tl Hover Hs Hnin Hf Hs' Hsc' Hf' Hgo Hd' Hp'
        | h tl Hover Hs Hnin Hf Hs' Hsc' Hf' Hgo Hd' Hp'].
  - (* the game was over already *)
    unfold play_inv, status_ok, score_ok, timer_ok, heading_ok, neck_ok,
      food_in_grid in *. game_simpl. rewrite Hover in *.
    split; [exact Hst |]. split; [exact Hsc |]. split; [reflexivity |].
    split; [auto |]. split; [exact Hct |].
    split; [intros; discriminate | exact Hfg].
  - (* collision *)
    destruct (status_ok_running g Hst Hover) as (_ & Hfood).
    subst g'.
    unfold play_inv, status_ok, score_ok, timer_ok, heading_ok, neck_ok,
      food_in_grid in *. game_simpl.
    split; [auto |]. split; [exact Hsc |]. split; [reflexivity |].
    split; [repeat split; auto; now apply unit_not_opposite |].
    split; [exact Hct |].
    split; [intros; discriminate | exact Hfg].
  - (* the food is eaten *)
    pose proof (step_meta r g g' h tl Hstep Hover Hs) as Hm.
    rewrite (proj2 (mem_point_not_In _ _) Hnin) in Hm.
    destruct Hm as (Ha & Hst').
    destruct (status_ok_running g Hst Hover) as (Hhelp & _).
    unfold play_inv, status_ok, score_ok, timer_ok, heading_ok, neck_ok,
      food_in_grid.
    rewrite Hst', Hs', Hsc', Hd', Hp', Hhelp, Hgo.
    split.
    { destruct (food g'); cbn [food_absent]; split; congruence. }
    split.
    { rewrite Hsc. cbn [List.length]. lia. }
    split; [rewrite Ha, Hgo; reflexivity |].
    split; [repeat split; auto; now apply unit_not_opposite |].
    split.
    { rewrite Hs. split; [| rewrite <- Hs; exact Hct].
      exists (pending_direction g). split; [exact Hp | reflexivity]. }
    split.
    { intros _. rewrite Hs. exists (next_cell h (pending_direction g)), h, tl.
      split; reflexivity. }
    intros f E. rewrite Hf' in E. apply spawn_food_Some in E. exact (proj1 E).
  - (* a plain move *)
    pose proof (step_meta r g g' h tl Hstep Hover Hs) as Hm.
    rewrite (proj2 (mem_point_not_In _ _) Hnin) in Hm.
    destruct Hm as (Ha & Hst').
    destruct (status_ok_running g Hst Hover) as (Hhelp & Hfood).
    destruct (Hnk Hover) as (h0 & n & tl0 & Hs0 & Hh0).
    assert (h0 = h) as -> by congruence.
    assert (Hrl : removelast (snake g) = h :: removelast (n :: tl0))
      by (rewrite Hs0; reflexivity).
    unfold play_inv, status_ok, score_ok, timer_ok, heading_ok, neck_ok,
      food_in_grid.
    rewrite Hst', Hs', Hsc', Hd', Hp', Hhelp, Hgo, Hf'.
    destruct (food g) as [f0 |] eqn:Ef; [| congruence].
    cbn [food_absent].
    split; [split; [reflexivity | discriminate] |].
    split.
    { rewrite Hsc, removelast_cons_length by congruence. reflexivity. }
    split; [rewrite Ha, Hgo; reflexivity |].
    split; [repeat split; auto; now apply unit_not_opposite |].
    split.
    { rewrite Hrl. split.
      - exists (pending_direction g). split; [exact Hp | reflexivity].
      - rewrite <- Hrl. now apply contiguous_removelast. }
    split.
    { intros _. rewrite Hrl.
      exists (next_cell h (pending_direction g)), h, (removelast (n :: tl0)).
      split; reflexivity. }
    intros f E. injection E as <-. now apply Hfg.
Qed.

Lemma process_direction_play_inv (k : string) (g g' : SnakeGame) :
  game_inv g -> play_inv g -> process_direction k g = Some g' -> play_inv g'.
Proof.
  intros (_ & _ & _ & Hlen) Hinv H.
  destruct (process_direction_cases _ _ _ H)
    as (d & Hd & [(-> & _) | (-> & Hne)]); [exact Hinv |].
  destruct Hinv as (Hst & Hsc & Htm & (Hdir & Hp & _) & Hct & Hnk & Hfg).
  unfold play_inv, status_ok, score_ok, timer_ok, heading_ok, neck_ok,
    food_in_grid in *. game_simpl.
  split; [exact Hst |]. split; [exact Hsc |]. split; [exact Htm |].
  split.
  { split; [exact Hdir |].
    split; [exact (directions_unit _ _ Hd) | apply Hne; lia]. }
  split; [exact Hct |]. split; [exact Hnk | exact Hfg].
Qed.

Lemma reachable_play_inv (g : SnakeGame) : reachable g -> play_inv g.
Proof.
  induction 1 as [r | r g _ _ | r g g' _ IH Hstep | k g g' Hr IH Hp
                  | r k g g' Hr IH Hk].
  - apply reset_play_inv.
  - apply reset_play_inv.
  - exact (step_play_inv _ _ _ IH Hstep).
  - exact (process_direction_play_inv _ _ _ (reachable_inv g Hr) IH Hp).
  - destruct (on_key_press_cases _ _ _ _ Hk) as [Hp | [(_ & _ & ->) | ->]].
    + exact (process_direction_play_inv _ _ _ (reachable_inv g Hr) IH Hp).
    + apply reset_play_inv.
    + exact IH.
Qed.

Example init_then_fed : step 0 (init 227) = Some fed.
Proof. vm_compute. reflexivity. Qed.

Lemma fed_reachable : reachable fed.
Proof. exact (reach_step 0%nat (init 227) fed (reach_init 227) init_then_fed). Qed.

(** * The grid as a list *)

Lemma NoDup_map_injective (A B : Type) (f : A -> B) (l : list A) :
  (forall a a', f a = f a' -> a = a') -> NoDup l -> NoDup (map f l).
Proof.
  intros Hinj. induction 1 as [| a l Hn _ IH]; cbn [map]; constructor.
  - intros Hin. apply in_map_iff in Hin. destruct Hin as (a' & E & Hin').
    apply Hinj in E. now subst.
  - exact IH.
Qed.

Section Pairs.

Variables A B : Type.

Lemma NoDup_pairs (xs : list A) (ys : list B) :
  NoDup xs -> NoDup ys ->
  NoDup (flat_map (fun x => map (fun y => (x, y)) ys) xs).
Proof.
  intros Hx Hy. induction Hx as [| x xs Hn _ IH]; cbn [flat_map].
  - constructor.
  - apply NoDup_app.
    + apply NoDup_map_injective; [| exact Hy]. intros y y' E. now inversion E.
    + exact IH.
    + intros p Hp Hq. apply in_map_iff in Hp. destruct Hp as (y & <- & _).
      apply in_flat_map in Hq. destruct Hq as (x' & Hx' & Hq).
      apply in_map_iff in Hq. destruct Hq as (y' & E & _).
      inversion E. now subst.
Qed.

End Pairs.

Lemma range_NoDup (n : Z) : NoDup (range n).
Proof.
  unfold range. apply NoDup_map_injective; [| apply seq_NoDup].
  intros a a' E. lia.
Qed.

Lemma iter_grid_NoDup : NoDup iter_grid.
Proof. apply NoDup_pairs; apply range_NoDup. Qed.

Lemma iter_grid_length :
  List.length iter_grid = Z.to_nat (GRID_WIDTH * GRID_HEIGHT).
Proof. reflexivity. Qed.

(** * Further properties of the game *)

(** X1. In every reachable state the score is the number of cells the
    snake has gained over its initial three; in particular it is never
    negative. *)
Theorem score_counts_growth (g : SnakeGame) :
  reachable g ->
  score g = Z.of_nat (List.length (snake g)) - 3 /\ 0 <= score g.
Proof.
  intros Hr. destruct (reachable_play_inv g Hr) as (_ & Hsc & _).
  destruct (reachable_inv g Hr) as (_ & _ & _ & Hlen).
  unfold score_ok in Hsc. split; [exact Hsc | lia].
Qed.

Lemma score_counts_growth_witness :
  score fed = Z.of_nat (List.length (snake fed)) - 3 /\ 0 <= score fed.
Proof. apply (score_counts_growth fed). exact fed_reachable. Defined.

(** X2. In every reachable state a tick is scheduled exactly when the
    game is not over. *)
Theorem timer_runs_while_playing (g : SnakeGame) :
  reachable g -> after_id g = negb (game_over g).
Proof.
  intros Hr. exact (proj1 (proj2 (proj2 (reachable_play_inv g Hr)))).
Qed.

Lemma timer_runs_while_playing_witness :
  after_id fed = negb (game_over fed).
Proof. apply (timer_runs_while_playing fed). exact fed_reachable. Defined.

(** X3. In every reachable state the status line tells how the game
    stands: the help text while the game runs (and then food is present);
    after the end either the game-over text carrying the current score,
    with food still present, or the win text, with no food left. *)
Theorem status_line_tells_state (g : SnakeGame) :
  reachable g ->
  (game_over g = false -> status g = StatusHelp /\ food g <> None) /\
  (game_over g = true ->
   (status g = StatusGameOver (score g) /\ food g <> None) \/
   (status g = StatusWin /\ food g = None)).
Proof.
  intros Hr. destruct (reachable_play_inv g Hr) as (Hst & _).
  unfold status_ok in Hst. destruct (status g) as [| | s |].
  - contradiction.
  - destruct Hst as (Hgo & Hf). split; [auto | congruence].
  - destruct Hst as (Hgo & -> & Hf). split; [congruence | auto].
  - destruct Hst as (Hgo & Hf). split; [congruence | auto].
Qed.

Lemma status_line_tells_state_witness :
  (game_over fed = false -> status fed = StatusHelp /\ food fed <> None) /\
  (game_over fed = true ->
   (status fed = StatusGameOver (score fed) /\ food fed <> None) \/
   (status fed = StatusWin /\ food fed = None)).
Proof. apply (status_line_tells_state fed). exact fed_reachable. Defined.

(** X4. In every reachable state the applied and the pending direction
    are each one of the four unit vectors, and the pending direction is
    not the reverse of the applied one. *)
Theorem headings_are_units (g : SnakeGame) :
  reachable g ->
  unit_direction (direction g) /\
  unit_direction (pending_direction g) /\
  pending_direction g <> opposite (direction g).
Proof.
  intros Hr.
  exact (proj1 (proj2 (proj2 (proj2 (reachable_play_inv g Hr))))).
Qed.

Lemma headings_are_units_witness :
  unit_direction (direction fed) /\
  unit_direction (pending_direction fed) /\
  pending_direction fed <> opposite (direction fed).
Proof. apply (headings_are_units fed). exact fed_reachable. Defined.

(** X5. In every reachable state each snake cell is one wrapped unit move
    away from the cell behind it. *)
Theorem snake_is_contiguous (g : SnakeGame) :
  reachable g -> contiguous (snake g).
Proof.
  intros Hr.
  exact (proj1 (proj2 (proj2 (proj2 (proj2 (reachable_play_inv g Hr)))))).
Qed.

Lemma snake_is_contiguous_witness : contiguous (snake fed).
Proof. apply (snake_is_contiguous fed). exact fed_reachable. Defined.

(** X6. In a reachable state whose game is not over, the cell the next
    tick moves the head to is never the cell right behind the head: the
    snake cannot turn back onto its neck. *)
Theorem tick_never_hits_neck (g : SnakeGame) (h n : Point)
    (tl : list Point) :
  reachable g ->
  game_over g = false ->
  snake g = h :: n :: tl ->
  next_cell h (pending_direction g) <> n.
Proof.
  intros Hr Hover Hs.
  destruct (reachable_play_inv g Hr)
    as (_ & _ & _ & (Hd & Hp & Hne) & _ & Hnk & _).
  destruct (reachable_inv g Hr) as (_ & Hb & _).
  destruct (Hnk Hover) as (h' & n' & tl' & Hs' & Hh).
  rewrite Hs in Hs'. injection Hs' as <- <- <-.
  assert (in_grid n) as Hn by (apply Hb; rewrite Hs; right; now left).
  destruct n as [nx ny]. unfold in_grid, GRID_WIDTH, GRID_HEIGHT in Hn.
  cbn [fst snd] in Hn.
  subst h. revert Hne.
  unfold next_cell, wrap_point, opposite, GRID_WIDTH, GRID_HEIGHT.
  destruct Hd as [-> | [-> | [-> | ->]]];
    destruct Hp as [-> | [-> | [-> | ->]]];
    cbn [fst snd]; intros Hne E; try (now apply Hne);
    injection E as Ex Ey; Z.div_mod_to_equations; lia.
Qed.

Lemma tick_never_hits_neck_witness :
  next_cell (11, 10) (pending_direction fed) <> (10, 10).
Proof.
  apply (tick_never_hits_neck fed (11, 10) (10, 10) [(9, 10); (8, 10)]).
  - exact fed_reachable.
  - reflexivity.
  - reflexivity.
Defined.

(** X7. From a reachable state no run of ticks ever raises, and it ends
    in a reachable state. *)
Theorem ticks_never_raise (g : SnakeGame) (rs : list nat) :
  reachable g ->
  exists g', steps rs g = Some g' /\ reachable g'.
Proof.
  revert g. induction rs as [| r rs IH]; intros g Hr.
  - exists g. split; [reflexivity | exact Hr].
  - destruct (reachable_snake_head g Hr) as (h & tl & Hs).
    destruct (step_total r g) as [g1 H1]; [right; congruence |].
    cbn [steps]. rewrite H1. apply IH.
    exact (reach_step r g g1 Hr H1).
Qed.

Lemma ticks_never_raise_witness :
  exists g', steps [0%nat; 1%nat; 2%nat] fed = Some g' /\ reachable g'.
Proof. apply (ticks_never_raise fed). exact fed_reachable. Defined.

(** X8. In every reachable state the snake has at most as many cells as
    the grid; the food is absent exactly when the snake fills the grid,
    and then the game is over with the win text and the score is the
    number of grid cells less three. *)
Theorem win_is_full_grid (g : SnakeGame) :
  reachable g ->
  (List.length (snake g) <= Z.to_nat (GRID_WIDTH * GRID_HEIGHT))%nat /\
  (food g = None <->
   List.length (snake g) = Z.to_nat (GRID_WIDTH * GRID_HEIGHT)) /\
  (food g = None ->
   game_over g = true /\ status g = StatusWin /\
   score g = GRID_WIDTH * GRID_HEIGHT - 3).
Proof.
  intros Hr.
  destruct (reachable_inv g Hr) as ((Hoff & Hfull) & Hb & Hu & _).
  destruct (reachable_play_inv g Hr) as (Hst & Hsc & _ & _ & _ & _ & Hfg).
  rewrite <- iter_grid_length.
  assert (incl (snake g) iter_grid) as Hincl
    by (intros c Hc; apply iter_grid_In; now apply Hb).
  assert (List.length (snake g) <= List.length iter_grid)%nat as Hle
    by (apply NoDup_incl_length; assumption).
  assert (food g = None ->
          List.length (snake g) = List.length iter_grid) as Hlen.
  { intros E. apply Nat.le_antisymm; [exact Hle |].
    apply NoDup_incl_length; [apply iter_grid_NoDup |].
    intros c Hc. apply (Hfull E). now apply iter_grid_In. }
  split; [exact Hle |]. split; [split; [exact Hlen |] |].
  - intros E. destruct (food g) as [f |] eqn:Ef; [exfalso | reflexivity].
    apply (Hoff f Ef).
    apply (NoDup_length_incl Hu (l' := iter_grid)); [lia | exact Hincl |].
    apply iter_grid_In. now apply Hfg.
  - intros E. specialize (Hlen E). unfold score_ok in Hsc.
    unfold status_ok in Hst.
    rewrite Hsc, Hlen, iter_grid_length.
    destruct (status g) as [| | s |];
      [contradiction | destruct Hst; congruence
       | destruct Hst as (_ & _ & ?); congruence |].
    destruct Hst as (Hgo & _). split; [exact Hgo | split; [reflexivity |]].
    unfold GRID_WIDTH, GRID_HEIGHT. reflexivity.
Qed.

Lemma win_is_full_grid_witness :
  (List.length (snake fed) <= Z.to_nat (GRID_WIDTH * GRID_HEIGHT))%nat /\
  (food fed = None <->
   List.length (snake fed) = Z.to_nat (GRID_WIDTH * GRID_HEIGHT)) /\
  (food fed = None ->
   game_over fed = true /\ status fed = StatusWin /\
   score fed = GRID_WIDTH * GRID_HEIGHT - 3).
Proof. apply (win_is_full_grid fed). exact fed_reachable. Defined.

(** * Keys *)

(** X9. [process_direction] raises (a missing dictionary key) exactly on
    the key symbols that are not arrow keys, and [on_key_press], which
    guards the call, never raises, whatever the key and the state. *)
Theorem key_press_never_raises :
  (forall k g, process_direction k g = None <-> is_arrow k = false) /\
  (forall r k g, exists g', on_key_press r k g = Some g').
Proof.
  assert (forall k g, process_direction k g = None <-> is_arrow k = false)
    as Hpd.
  { intros k g. pose proof (directions_is_arrow k) as Ha.
    unfold process_direction. destruct (directions k) as [d |].
    - destruct (is_arrow k).
      + destruct (_ && _); split; discriminate.
      + exfalso. assert (Some d <> None) as X by discriminate.
        apply Ha in X. discriminate.
    - destruct (is_arrow k); [| tauto].
      exfalso. destruct Ha as [Ha _]. now apply Ha. }
  split; [exact Hpd |].
  intros r k g. unfold on_key_press. destruct (is_arrow k) eqn:Ek.
  - destruct (process_direction k g) as [g' |] eqn:E; [eauto |].
    apply Hpd in E. congruence.
  - destruct (_ && _); eauto.
Qed.

(** X10. A key that is not an arrow key changes nothing, unless it is the
    space key pressed when the game is over: other keys are ignored, and
    so is the space key while the game runs. *)
Theorem other_keys_ignored (r : nat) (k : string) (g : SnakeGame) :
  is_arrow k = false ->
  k <> "space"%string \/ game_over g = false ->
  on_key_press r k g = Some g.
Proof.
  intros Ek H. unfold on_key_press. rewrite Ek.
  destruct (String.eqb k "space") eqn:Es; cbn [andb]; [| reflexivity].
  apply String.eqb_eq in Es. destruct H as [H | ->]; [contradiction |].
  reflexivity.
Qed.

Lemma other_keys_ignored_witness :
  on_key_press 0 "space" fed = Some fed.
Proof.
  apply (other_keys_ignored 0%nat "space" fed).
  - reflexivity.
  - right. reflexivity.
Defined.

(** X11. [reset] keeps nothing of the state it is applied to: with the
    same food choice it gives the same game from any two states, which is
    the game the constructor builds. *)
Theorem reset_forgets_the_past (r : nat) (g g' : SnakeGame) :
  reset r g = reset r g' /\ reset r g = init r.
Proof.
  assert (forall a b, reset r a = reset r b) as H.
  { intros a b. unfold reset, spawn_food, empty_cells. game_simpl.
    destruct (filter _ iter_grid); reflexivity. }
  split; [apply H | unfold init; apply H].
Qed.

(** X13. The reversal guard needs a snake of two cells or more: on a
    snake of at most one cell every arrow key is recorded as pending, the
    reverse of the applied direction included. *)
Theorem short_snake_may_reverse (k : string) (d : Direction)
    (g : SnakeGame) :
  (List.length (snake g) <= 1)%nat ->
  directions k = Some d ->
  process_direction k g = Some (set_pending_direction d g).
Proof.
  intros Hlen Hd. unfold process_direction. rewrite Hd.
  destruct (List.length (snake g)) as [| [| n]]; [reflexivity .. | lia].
Qed.

Lemma short_snake_may_reverse_witness :
  directions "Left" = Some (opposite (direction hatchling)) /\
  process_direction "Left" hatchling =
    Some (set_pending_direction (-1, 0) hatchling).
Proof.
  split; [reflexivity |].
  apply (short_snake_may_reverse "Left" (-1, 0) hatchling).
  - cbn. lia.
  - reflexivity.
Defined.

(** X16. Pressing an arrow key that is not the reverse of the applied
    direction and then ticking, in a reachable state whose game is not
    over, makes that key's direction the applied one; and unless the cell
    one step that way from the head is a snake cell, the head moves
    there. *)
Theorem key_then_tick_turns (r : nat) (k : string) (d : Direction)
    (g : SnakeGame) (h : Point) (tl : list Point) :
  reachable g ->
  game_over g = false ->
  snake g = h :: tl ->
  directions k = Some d ->
  d <> opposite (direction g) ->
  exists g1 g2,
    process_direction k g = Some g1 /\
    step r g1 = Some g2 /\
    direction g2 = d /\
    (~ In (next_cell h d) (snake g) ->
     exists t, snake g2 = next_cell h d :: t).
Proof.
  intros Hr Hover Hs Hd Hne.
  assert (process_direction k g = Some (set_pending_direction d g)) as Hp.
  { unfold process_direction. rewrite Hd.
    destruct (direction_eqb d (opposite (direction g))) eqn:E.
    - apply direction_eqb_eq in E. contradiction.
    - rewrite andb_false_r. reflexivity. }
  set (g1 := set_pending_direction d g) in *.
  assert (game_over g1 = false) as Hover1 by exact Hover.
  assert (snake g1 = h :: tl) as Hs1 by exact Hs.
  destruct (step_run r g1 h tl Hover1 Hs1) as [g2 [Hstep Hcase]].
  exists g1, g2. split; [exact Hp |]. split; [exact Hstep |].
  destruct Hcase
    as [Ho _ | h' tl' _ Hs' Hin -> | h' tl' _ Hs' _ _ Hsn _ _ _ Hdir _
        | h' tl' _ Hs' _ _ Hsn _ _ _ Hdir _]; [congruence | | |];
    assert (h' = h) as -> by congruence.
  - split; [reflexivity |]. intros Hnin. contradiction.
  - split; [exact Hdir |]. intros _. eexists. exact Hsn.
  - split; [exact Hdir |]. intros _. eexists. exact Hsn.
Qed.

Lemma key_then_tick_turns_witness :
  exists g1 g2,
    process_direction "Up" fed = Some g1 /\
    step 0 g1 = Some g2 /\
    direction g2 = (0, -1) /\
    (~ In (next_cell (11, 10) (0, -1)) (snake fed) ->
     exists t, snake g2 = next_cell (11, 10) (0, -1) :: t).
Proof.
  apply (key_then_tick_turns 0%nat "Up" (0, -1) fed (11, 10)
           [(10, 10); (9, 10); (8, 10)]).
  - exact fed_reachable.
  - reflexivity.
  - reflexivity.
  - reflexivity.
  - discriminate.
Defined.

(** * Movement *)

(** X12. From a grid cell, one step in a direction lands on the next cell
    that way, and at a border on the cell at the opposite border of the
    same row or column; a grid cell is its own wrap. *)
Theorem next_cell_wraps_at_borders (x y : Z) :
  in_grid (x, y) ->
  wrap_point (x, y) = (x, y) /\
  next_cell (x, y) (1, 0) = ((if x =? GRID_WIDTH - 1 then 0 else x + 1), y) /\
  next_cell (x, y) (-1, 0) = ((if x =? 0 then GRID_WIDTH - 1 else x - 1), y) /\
  next_cell (x, y) (0, 1) = (x, (if y =? GRID_HEIGHT - 1 then 0 else y + 1)) /\
  next_cell (x, y) (0, -1) = (x, (if y =? 0 then GRID_HEIGHT - 1 else y - 1)).
Proof.
  unfold in_grid, next_cell, wrap_point, GRID_WIDTH, GRID_HEIGHT.
  cbn [fst snd]. intros [Hx Hy].
  repeat split; f_equal;
    repeat match goal with
           | |- context [?a =? ?b] => destruct (Z.eqb_spec a b)
           end;
    Z.div_mod_to_equations; lia.
Qed.

Lemma next_cell_wraps_at_borders_witness :
  wrap_point (19, 0) = (19, 0) /\
  next_cell (19, 0) (1, 0) = ((if 19 =? GRID_WIDTH - 1 then 0 else 19 + 1), 0) /\
  next_cell (19, 0) (-1, 0) = ((if 19 =? 0 then GRID_WIDTH - 1 else 19 - 1), 0) /\
  next_cell (19, 0) (0, 1) = (19, (if 0 =? GRID_HEIGHT - 1 then 0 else 0 + 1)) /\
  next_cell (19, 0) (0, -1) = (19, (if 0 =? 0 then GRID_HEIGHT - 1 else 0 - 1)).
Proof.
  apply (next_cell_wraps_at_borders 19 0).
  unfold in_grid, GRID_WIDTH, GRID_HEIGHT. cbn. lia.
Defined.

(** X17. A tick that neither collides nor eats, on a snake of distinct
    cells, puts the head on the next cell, frees exactly the tail cell
    and keeps every other cell. *)
Theorem plain_move_frees_tail (r : nat) (g : SnakeGame) (h : Point)
    (tl : list Point) :
  game_over g = false ->
  snake g = h :: tl ->
  NoDup (snake g) ->
  ~ In (next_cell h (pending_direction g)) (snake g) ->
  food g <> Some (next_cell h (pending_direction g)) ->
  exists g', step r g = Some g' /\
    hd_error (snake g') = Some (next_cell h (pending_direction g)) /\
    ~ In (last (snake g) h) (snake g') /\
    (forall c, In c (snake g) -> c <> last (snake g) h -> In c (snake g')) /\
    food g' = food g /\ score g' = score g.
Proof.
  intros Hover Hs Hn Hnin Hfood.
  destruct (step_run r g h tl Hover Hs) as [g' [Hstep Hcase]].
  exists g'. split; [exact Hstep |].
  assert (snake g <> []) as Hne by congruence.
  destruct Hcase
    as [Ho _ | h' tl' _ Hs' Hin _ | h' tl' _ Hs' _ Hf
        | h' tl' _ Hs' _ _ Hsn Hsc Hf' _ _ _]; [congruence | | |];
    assert (h' = h) as -> by congruence; [contradiction .. |].
  rewrite Hsn. split; [reflexivity |]. split; [| split; [| auto]].
  - intros [E | Hin].
    + apply Hnin. rewrite E. now apply last_In.
    + revert Hin. now apply last_not_in_removelast.
  - intros c Hc Hcl. right.
    rewrite (app_removelast_last h Hne) in Hc.
    apply in_app_or in Hc. destruct Hc as [Hc | [Hc | []]];
      [exact Hc | congruence].
Qed.

Lemma plain_move_frees_tail_witness :
  exists g', step 0 fed = Some g' /\
    hd_error (snake g') = Some (next_cell (11, 10) (pending_direction fed)) /\
    ~ In (last (snake fed) (11, 10)) (snake g') /\
    (forall c, In c (snake fed) -> c <> last (snake fed) (11, 10) ->
               In c (snake g')) /\
    food g' = food fed /\ score g' = score fed.
Proof.
  apply (plain_move_frees_tail 0%nat fed (11, 10)
           [(10, 10); (9, 10); (8, 10)]).
  - reflexivity.
  - reflexivity.
  - repeat constructor; cbn; intuition discriminate.
  - cbn. intuition discriminate.
  - discriminate.
Defined.

(** X18. A tick that eats raises the score by one and never leaves the
    food where it was: the new food, if any, is a grid cell off the grown
    snake; if no cell is left the game ends with the win text, otherwise
    it goes on. *)
Theorem eating_moves_the_food (r : nat) (g : SnakeGame) (h : Point)
    (tl : list Point) :
  game_over g = false ->
  snake g = h :: tl ->
  ~ In (next_cell h (pending_direction g)) (snake g) ->
  food g = Some (next_cell h (pending_direction g)) ->
  exists g', step r g = Some g' /\
    score g' = score g + 1 /\
    food g' <> food g /\
    (forall f, food g' = Some f -> in_grid f /\ ~ In f (snake g')) /\
    (food g' = None -> game_over g' = true /\ status g' = StatusWin) /\
    (food g' <> None -> game_over g' = false /\ status g' = status g).
Proof.
  intros Hover Hs Hnin Hfood.
  destruct (step_run r g h tl Hover Hs) as [g' [Hstep Hcase]].
  exists g'. split; [exact Hstep |].
  pose proof (step_meta r g g' h tl Hstep Hover Hs) as Hm.
  rewrite (proj2 (mem_point_not_In _ _) Hnin) in Hm.
  destruct Hm as (_ & Hst).
  destruct Hcase
    as [Ho _ | h' tl' _ Hs' Hin _ | h' tl' _ Hs' _ _ Hsn Hsc Hf' Hgo _ _
        | h' tl' _ Hs' _ Hf]; [congruence | | |];
    assert (h' = h) as -> by congruence; [contradiction | | contradiction].
  assert (forall f, food g' = Some f -> in_grid f /\ ~ In f (snake g')) as Hnew.
  { intros f E. rewrite Hf' in E. apply spawn_food_Some in E.
    rewrite Hsn. exact E. }
  split; [exact Hsc |]. split; [| split; [exact Hnew |]].
  - rewrite Hfood. intros E. apply (proj2 (Hnew _ E)). rewrite Hsn. now left.
  - rewrite Hst, Hgo. split; intros E.
    + rewrite E. split; reflexivity.
    + destruct (food g'); [split; reflexivity | congruence].
Qed.

Lemma eating_moves_the_food_witness :
  exists g', step 0 (init 227) = Some g' /\
    score g' = score (init 227) + 1 /\
    food g' <> food (init 227) /\
    (forall f, food g' = Some f -> in_grid f /\ ~ In f (snake g')) /\
    (food g' = None -> game_over g' = true /\ status g' = StatusWin) /\
    (food g' <> None -> game_over g' = false /\ status g' = status (init 227)).
Proof.
  apply (eating_moves_the_food 0%nat (init 227) (10, 10)
           [(9, 10); (8, 10)]).
  - reflexivity.
  - reflexivity.
  - vm_compute. intuition discriminate.
  - vm_compute. reflexivity.
Defined.

(** X19. The cells [spawn_food] can put the food on are exactly the grid
    cells that are not snake cells; it leaves the food absent exactly
    when there is no such cell. *)
Theorem spawn_food_picks_empty_cells (g : SnakeGame) :
  (forall c, (exists r, food (spawn_food r g) = Some c) <->
             in_grid c /\ ~ In c (snake g)) /\
  (forall r, food (spawn_food r g) = None <->
             forall c, in_grid c -> In c (snake g)).
Proof.
  split.
  - intros c. split.
    + intros [r E]. exact (spawn_food_Some r g c E).
    + intros [Hc Hn]. exact (spawn_food_any g c Hc Hn).
  - intros r. split; [apply spawn_food_None |].
    intros Hall. destruct (food (spawn_food r g)) as [f |] eqn:E;
      [| reflexivity].
    apply spawn_food_Some in E. destruct E as [Hf Hn].
    exfalso. apply Hn. now apply Hall.
Qed.

(** * Drawing *)

Lemma enumerate_from_In (A : Type) (k i : nat) (a : A) (l : list A) :
  In (i, a) (enumerate_from A k l) -> In a l.
Proof.
  revert k. induction l as [| b l IH]; intros k; cbn [enumerate_from].
  - intros [].
  - intros [E | H]; [left; congruence | right; exact (IH _ H)].
Qed.

Lemma enumerate_from_positive (k : nat) (l : list Point) :
  map (fun '(index, c) =>
         let color : string :=
           if Nat.eqb index 0 then "#3bd16f"%string else "#2ea75a"%string in
         draw_cell c color)
      (enumerate_from Point (S k) l)
  = map (fun c => draw_cell c "#2ea75a") l.
Proof.
  revert k. induction l as [| c l IH]; intros k; [reflexivity |].
  cbn [enumerate_from map Nat.eqb]. now rewrite IH.
Qed.

Lemma draw_cell_in_canvas (c : Point) (col : string) :
  in_grid c -> item_in_canvas (draw_cell c col).
Proof.
  destruct c as [x y].
  unfold in_grid, item_in_canvas, draw_cell, item_box, GRID_WIDTH,
    GRID_HEIGHT, CELL_SIZE. cbn [fst snd]. lia.
Qed.

Lemma draw_grid_in_canvas : Forall item_in_canvas draw_grid.
Proof.
  apply Forall_forall. intros it Hit. unfold draw_grid in Hit.
  apply in_app_or in Hit.
  destruct Hit as [H | H]; apply in_map_iff in H;
    destruct H as (v & <- & Hv); apply range_In in Hv;
    unfold item_in_canvas, item_box, GRID_WIDTH, GRID_HEIGHT, CELL_SIZE in *;
    lia.
Qed.

(** X14. In every reachable state every item [draw] creates, grid lines,
    snake rectangles and the food rectangle, lies within the canvas of
    GRID_WIDTH * CELL_SIZE by GRID_HEIGHT * CELL_SIZE pixels. *)
Theorem drawing_fits_canvas (g : SnakeGame) :
  reachable g -> Forall item_in_canvas (draw g).
Proof.
  intros Hr. destruct (reachable_inv g Hr) as (_ & Hb & _).
  destruct (reachable_play_inv g Hr) as (_ & _ & _ & _ & _ & _ & Hfg).
  unfold draw. apply Forall_app. split; [apply draw_grid_in_canvas |].
  apply Forall_app. split.
  - apply Forall_forall. intros it Hit. unfold draw_snake in Hit.
    apply in_map_iff in Hit. destruct Hit as ([i c] & <- & Hic).
    apply draw_cell_in_canvas. apply Hb.
    exact (enumerate_from_In _ _ _ _ _ Hic).
  - destruct (food g) as [f |] eqn:Ef; [| constructor].
    constructor; [| constructor]. apply draw_cell_in_canvas. now apply Hfg.
Qed.

Lemma drawing_fits_canvas_witness : Forall item_in_canvas (draw fed).
Proof. apply (drawing_fits_canvas fed). exact fed_reachable. Defined.

(** X15. The rectangles drawn for two different cells share no interior
    point; so in every reachable state the food rectangle overlaps no
    snake rectangle. *)
Theorem cells_are_drawn_apart :
  (forall c c' col col',
     c <> c' -> ~ boxes_overlap (draw_cell c col) (draw_cell c' col')) /\
  (forall g f c col col',
     reachable g -> food g = Some f -> In c (snake g) ->
     ~ boxes_overlap (draw_cell f col) (draw_cell c col')).
Proof.
  assert (forall c c' col col',
            c <> c' -> ~ boxes_overlap (draw_cell c col) (draw_cell c' col'))
    as Hapart.
  { intros [x y] [x' y'] col col' Hne.
    unfold boxes_overlap, draw_cell, item_box, CELL_SIZE.
    intros (H1 & H2 & H3 & H4). apply Hne. f_equal; lia. }
  split; [exact Hapart |].
  intros g f c col col' Hr Hf Hc. apply Hapart. intros ->.
  destruct (reachable_inv g Hr) as ((Hoff & _) & _).
  exact (Hoff c Hf Hc).
Qed.

(** X20. The first snake cell, the head, is drawn in the head colour and
    every other cell in the body colour, in snake order. *)
Theorem head_is_drawn_brighter (h : Point) (tl : list Point) :
  draw_snake (h :: tl) =
  draw_cell h "#3bd16f" :: map (fun c => draw_cell c "#2ea75a") tl.
Proof.
  unfold draw_snake, enumerate. cbn [enumerate_from map Nat.eqb].
  now rewrite enumerate_from_positive.
Qed.
